(** * Email-Cleaner: a shallow embedding of the classification pipeline

    The development follows [services/emailCleaner.ts] (the email classifier
    [validateEmail], the field resolvers [findEmailKey] and [extractName],
    the pipeline [processFiles] and the export projection of [downloadCSV])
    together with the rule tables of [constants.ts] and the types of
    [types.ts].  The service exists in two variants, a basic one and an
    extended one with the name resolver and the field list of the export;
    both are embedded ([Variant]).  Of the components, the chart data of
    the dashboard ([pieData], [barData]) and the handlers of the file
    picker ([handleDrop], [handleFileInput], [removeFile]) are embedded as
    the pure computations they perform.

    Modelling conventions.
    - A JavaScript string is a [string] whose characters are read as code
      units in the Latin-1 range U+0000..U+00FF.  On that range
      [toLowerCase] and [trim] below are exact.
    - A JavaScript object is the list of its own enumerable properties in
      the order in which [Object.keys] reports them: array-index keys first,
      in ascending numeric order, then the other keys in creation order.
      The pipeline reads properties at own keys and at names that
      [Object.prototype] does not have, so [get_prop] looks at the own
      properties; the export projection reads at names the caller chooses
      and goes through the prototype chain ([read_or_empty]).
    - The tabular parser is an external collaborator: a file is given by
      its name and the rows the parser delivered for it (or a failure).
      With [header: true] and without dynamic typing every cell is a
      string.
    - The loop awaits one file after the other, so the run is sequential.
    - Counters are natural numbers (the floating point representation of
      JavaScript numbers is exact far beyond any row count that fits in
      memory). *)

From Stdlib Require Import Ascii String NArith Bool List Lia Sorted.
From stdpp Require Import gmap strings list fin_maps.

Local Open Scope string_scope.

(** ** Strings *)

Module JsString.

(** [String.prototype.toLowerCase] on one Latin-1 code unit: the letters
    A..Z, and the accented capitals U+00C0..U+00DE except the multiplication
    sign U+00D7, move up by 32. *)
Definition lower_char (c : ascii) : ascii :=
  let n := N_of_ascii c in
  if ((65 <=? n) && (n <=? 90))%N then ascii_of_N (n + 32)
  else if ((192 <=? n) && (n <=? 222) && negb (n =? 215))%N
       then ascii_of_N (n + 32)
  else c.

Fixpoint toLowerCase (s : string) : string :=
  match s with
  | EmptyString => EmptyString
  | String c s' => String (lower_char c) (toLowerCase s')
  end.

(** White space and line terminators of ECMAScript that lie in Latin-1:
    TAB, LF, VT, FF, CR, SPACE and NO-BREAK SPACE. *)
Definition is_space (c : ascii) : bool :=
  let n := N_of_ascii c in
  ((9 <=? n) && (n <=? 13) || (n =? 32) || (n =? 160))%N.

Fixpoint trimStart (s : string) : string :=
  match s with
  | EmptyString => EmptyString
  | String c s' => if is_space c then trimStart s' else s
  end.

Fixpoint trimEnd (s : string) : string :=
  match s with
  | EmptyString => EmptyString
  | String c s' =>
      match trimEnd s' with
      | EmptyString => if is_space c then EmptyString else String c EmptyString
      | r => String c r
      end
  end.

Definition trim (s : string) : string := trimEnd (trimStart s).

(** [hay.startsWith(needle)] and [hay.includes(needle)]. *)
Fixpoint startsWith (needle hay : string) : bool :=
  match needle, hay with
  | EmptyString, _ => true
  | String _ _, EmptyString => false
  | String a n', String b h' => Ascii.eqb a b && startsWith n' h'
  end.

Fixpoint includes (needle hay : string) : bool :=
  startsWith needle hay ||
  match hay with
  | EmptyString => false
  | String _ h' => includes needle h'
  end.

(** [s.split(sep)] for a separator of one code unit. *)
Fixpoint split (sep : ascii) (s : string) : list string :=
  match s with
  | EmptyString => [EmptyString]
  | String c s' =>
      if Ascii.eqb c sep then EmptyString :: split sep s'
      else match split sep s' with
           | h :: t => String c h :: t
           | [] => [String c EmptyString]
           end
  end.

(** Truthiness of a string: [!s] holds exactly for the empty string. *)
Definition is_empty (s : string) : bool :=
  match s with EmptyString => true | _ => false end.

End JsString.

Import JsString.

(** ** Regular expressions

    [EMAIL_REGEX] carries no flag, so [RegExp.prototype.test] is stateless
    and the anchors [^] and [$] make it a match of the whole string.  The
    matcher below decides whole-string matching by Brzozowski derivatives. *)

Module Regex.

(** A bracket expression is a list of inclusive ranges; a single character
    is the range from itself to itself. *)
Definition charclass := list (ascii * ascii).

Definition in_class (cs : charclass) (c : ascii) : bool :=
  existsb (fun r => (N_of_ascii (fst r) <=? N_of_ascii c)%N
                    && (N_of_ascii c <=? N_of_ascii (snd r))%N) cs.

Inductive regex : Type :=
| Void : regex
| Eps : regex
| Class : charclass -> regex
| Cat : regex -> regex -> regex
| Alt : regex -> regex -> regex
| Star : regex -> regex.

(** [r+] and [r{2,}]. *)
Definition Plus (r : regex) : regex := Cat r (Star r).
Definition AtLeast2 (r : regex) : regex := Cat r (Cat r (Star r)).
Definition Chr (c : ascii) : regex := Class [(c, c)].

Fixpoint nullable (r : regex) : bool :=
  match r with
  | Void => false
  | Eps => true
  | Class _ => false
  | Cat r1 r2 => nullable r1 && nullable r2
  | Alt r1 r2 => nullable r1 || nullable r2
  | Star _ => true
  end.

Fixpoint deriv (c : ascii) (r : regex) : regex :=
  match r with
  | Void => Void
  | Eps => Void
  | Class cs => if in_class cs c then Eps else Void
  | Cat r1 r2 =>
      if nullable r1 then Alt (Cat (deriv c r1) r2) (deriv c r2)
      else Cat (deriv c r1) r2
  | Alt r1 r2 => Alt (deriv c r1) (deriv c r2)
  | Star r1 => Cat (deriv c r1) (Star r1)
  end.

Fixpoint test (r : regex) (s : string) : bool :=
  match s with
  | EmptyString => nullable r
  | String c s' => test (deriv c r) s'
  end.

(** The language of a regular expression, for reasoning about [test]. *)
Inductive Matches : regex -> string -> Prop :=
| MEps : Matches Eps EmptyString
| MClass cs c : in_class cs c = true -> Matches (Class cs) (String c EmptyString)
| MCat r1 r2 s1 s2 :
    Matches r1 s1 -> Matches r2 s2 -> Matches (Cat r1 r2) (s1 ++ s2)
| MAltL r1 r2 s : Matches r1 s -> Matches (Alt r1 r2) s
| MAltR r1 r2 s : Matches r2 s -> Matches (Alt r1 r2) s
| MStarNil r : Matches (Star r) EmptyString
| MStarApp r s1 s2 :
    Matches r s1 -> Matches (Star r) s2 -> Matches (Star r) (s1 ++ s2).

End Regex.

Import Regex.

(** ** Rule tables ([constants.ts]) *)

Definition letters_digits : charclass :=
  [("a", "z"); ("A", "Z"); ("0", "9")]%char.

(** [[a-zA-Z0-9._%+-]], [[a-zA-Z0-9.-]] and [[a-zA-Z]]. *)
Definition local_class : charclass :=
  app letters_digits
      [(".", "."); ("_", "_"); ("%", "%"); ("+", "+"); ("-", "-")]%char.
Definition domain_class : charclass :=
  app letters_digits [(".", "."); ("-", "-")]%char.
Definition alpha_class : charclass := [("a", "z"); ("A", "Z")]%char.

(** [/^[a-zA-Z0-9._%+-]+@[a-zA-Z0-9.-]+\.[a-zA-Z]{2,}$/] *)
Definition EMAIL_REGEX : regex :=
  Cat (Plus (Class local_class))
      (Cat (Chr "@")
           (Cat (Plus (Class domain_class))
                (Cat (Chr ".") (AtLeast2 (Class alpha_class))))).

Definition TYPO_DOMAINS : gset string :=
  list_to_set
    ["gmal.com"; "gmil.com"; "gail.com"; "gmail.co";
     "yaho.com"; "yahooo.com"; "yhoo.com";
     "hotmal.com"; "hotmai.com"; "hotmil.com";
     "outlok.com"; "outlook.co";
     "test.com"; "example.com"; "xyz.com"; "abc.com"; "no-reply.com"].

Definition DISPOSABLE_DOMAINS : gset string :=
  list_to_set
    ["tempmail.com"; "throwawaymail.com"; "mailinator.com"; "guerrillamail.com";
     "10minutemail.com"; "yopmail.com"; "getnada.com"; "temp-mail.org";
     "fakeinbox.com"; "burnermail.io"].

Definition ROLE_PREFIXES : gset string :=
  list_to_set
    ["admin"; "support"; "info"; "sales"; "marketing"; "contact"; "office";
     "billing"; "help"; "noreply"; "no-reply"; "webmaster"; "hr"; "jobs";
     "enquiries"; "media"; "press"].

(** ** Statuses ([types.ts]) *)

Inductive EmailStatus : Type :=
| VALID
| INVALID_FORMAT
| DISPOSABLE
| ROLE_BASED
| TYPO_DOMAIN
| DUPLICATE
| MISSING_MX.

(** The run-time value of an enumeration member is its string. *)
Definition status_string (st : EmailStatus) : string :=
  match st with
  | VALID => "VALID"
  | INVALID_FORMAT => "INVALID_FORMAT"
  | DISPOSABLE => "DISPOSABLE"
  | ROLE_BASED => "ROLE_BASED"
  | TYPO_DOMAIN => "TYPO_DOMAIN"
  | DUPLICATE => "DUPLICATE"
  | MISSING_MX => "MISSING_MX"
  end.

Definition all_statuses : list EmailStatus :=
  [VALID; INVALID_FORMAT; DISPOSABLE; ROLE_BASED; TYPO_DOMAIN; DUPLICATE; MISSING_MX].

#[global] Instance EmailStatus_eq_dec : EqDecision EmailStatus.
Proof. solve_decision. Defined.

Definition status_code (st : EmailStatus) : nat :=
  match st with
  | VALID => 0 | INVALID_FORMAT => 1 | DISPOSABLE => 2 | ROLE_BASED => 3
  | TYPO_DOMAIN => 4 | DUPLICATE => 5 | MISSING_MX => 6
  end.

Definition status_of_code (n : nat) : option EmailStatus := all_statuses !! n.

#[global] Instance EmailStatus_countable : Countable EmailStatus.
Proof.
  apply (inj_countable status_code status_of_code).
  intros []; reflexivity.
Defined.

(** ** The classifier *)

(** [set.has(x)] where [x] may be [undefined] (a missing piece of the
    destructured [split]). *)
Definition has (set : gset string) (x : option string) : bool :=
  match x with
  | Some k => bool_decide (k ∈ set)
  | None => false
  end.

Definition validateEmail (email : string) : EmailStatus :=
  if is_empty email || negb (includes "@" email) then INVALID_FORMAT
  else
    let lowerEmail := trim (toLowerCase email) in
    if negb (test EMAIL_REGEX lowerEmail) then INVALID_FORMAT
    else
      let parts := split "@" lowerEmail in
      let localPart := parts !! 0 in
      let domain := parts !! 1 in
      if has TYPO_DOMAINS domain then TYPO_DOMAIN
      else if has DISPOSABLE_DOMAINS domain then DISPOSABLE
      else if has ROLE_PREFIXES localPart then ROLE_BASED
      else VALID.

(** ** Objects *)

Module JsObject.

(** Cell values: the parser delivers strings; [undefined] is what reading
    an absent property gives. *)
Inductive value : Type :=
| VStr (s : string)
| VUndefined.

#[global] Instance value_eq_dec : EqDecision value.
Proof. solve_decision. Defined.

(** Own properties in [Object.keys] order. *)
Definition obj : Type := list (string * value).

Definition keys {A} (o : list (string * A)) : list string := map fst o.

Fixpoint lookup_prop {A} (k : string) (o : list (string * A)) : option A :=
  match o with
  | [] => None
  | (k', v) :: o' => if String.eqb k k' then Some v else lookup_prop k o'
  end.

(** [o[k]] *)
Definition get_prop (k : string) (o : obj) : value :=
  match lookup_prop k o with
  | Some v => v
  | None => VUndefined
  end.

(** [String(v)] and [v || ''] for a cell. *)
Definition to_string (v : value) : string :=
  match v with
  | VStr s => s
  | VUndefined => "undefined"
  end.

Definition or_empty (v : value) : string :=
  match v with
  | VStr s => s
  | VUndefined => ""
  end.

(** A property key that is an array index: the canonical decimal numeral
    of an integer below 2^32 - 1. *)
Fixpoint digits_value (s : string) (acc : N) : option N :=
  match s with
  | EmptyString => Some acc
  | String c s' =>
      let n := N_of_ascii c in
      if ((48 <=? n) && (n <=? 57))%N
      then digits_value s' (acc * 10 + (n - 48))%N
      else None
  end.

Definition array_index (k : string) : option N :=
  match k with
  | EmptyString => None
  | String "0" EmptyString => Some 0%N
  | String "0" _ => None
  | _ =>
      match digits_value k 0%N with
      | Some n => if (n <? 4294967295)%N then Some n else None
      | None => None
      end
  end.

Fixpoint replace_prop {A} (k : string) (v : A) (o : list (string * A))
    : list (string * A) :=
  match o with
  | [] => []
  | (k', v') :: o' =>
      if String.eqb k k' then (k', v) :: o' else (k', v') :: replace_prop k v o'
  end.

Fixpoint insert_index {A} (n : N) (k : string) (v : A) (o : list (string * A))
    : list (string * A) :=
  match o with
  | [] => [(k, v)]
  | (k', v') :: o' =>
      match array_index k' with
      | Some m => if (m <? n)%N then (k', v') :: insert_index n k v o'
                  else (k, v) :: o
      | None => (k, v) :: o
      end
  end.

(** [o[k] = v]: an existing property keeps its place; a new array index
    goes to its numeric place among the indices; any other new key goes
    last. *)
Definition set_prop {A} (k : string) (v : A) (o : list (string * A))
    : list (string * A) :=
  match lookup_prop k o with
  | Some _ => replace_prop k v o
  | None =>
      match array_index k with
      | Some n => insert_index n k v o
      | None => app o [(k, v)]
      end
  end.

(** [{...target, ...src}]: the properties of [src] are set in order. *)
Definition assign (target src : obj) : obj :=
  fold_left (fun o kv => set_prop (fst kv) (snd kv) o) src target.

(** An object literal [{k1: v1, ..., kn: vn}]. *)
Definition literal (props : list (string * value)) : obj := assign [] props.

End JsObject.

Import JsObject.

(** ** Field resolvers *)

(** [Array.prototype.find], [findIndex] and [indexOf]; [None] stands for
    [undefined] and for [-1]. *)
Fixpoint findIndex {A} (p : A -> bool) (l : list A) : option nat :=
  match l with
  | [] => None
  | x :: l' => if p x then Some 0 else option_map S (findIndex p l')
  end.

Definition indexOf (x : string) (l : list string) : option nat :=
  findIndex (String.eqb x) l.

Definition array_includes (x : string) (l : list string) : bool :=
  existsb (String.eqb x) l.

(** [row[keys[i]]]: an index outside the array reads [undefined], which as
    a property key is the string "undefined". *)
Definition cell_at (row : obj) (ks : list string) (i : option nat) : value :=
  match i with
  | Some n =>
      match ks !! n with
      | Some k => get_prop k row
      | None => get_prop "undefined" row
      end
  | None => get_prop "undefined" row
  end.

Definition findEmailKey (row : obj) : option string :=
  match find (fun k => includes "email" (toLowerCase k)) (keys row) with
  | Some k => if is_empty k then None else Some k
  | None => None
  end.

Definition is_first_name (k : string) : bool :=
  String.eqb k "first name" || String.eqb k "firstname".

Definition is_last_name (k : string) : bool :=
  String.eqb k "last name" || String.eqb k "lastname".

Definition is_fuzzy_name (k : string) : bool :=
  let lower := toLowerCase k in
  includes "name" lower && negb (includes "email" lower)
  && negb (includes "file" lower).

Definition extractName (row : obj) : string :=
  let ks := keys row in
  let lowerKeys := map toLowerCase ks in
  if array_includes "name" lowerKeys
  then or_empty (cell_at row ks (indexOf "name" lowerKeys))
  else if array_includes "full name" lowerKeys
  then or_empty (cell_at row ks (indexOf "full name" lowerKeys))
  else if array_includes "fullname" lowerKeys
  then or_empty (cell_at row ks (indexOf "fullname" lowerKeys))
  else
    let firstIdx := findIndex is_first_name lowerKeys in
    let lastIdx := findIndex is_last_name lowerKeys in
    match firstIdx, lastIdx with
    | Some _, Some _ =>
        let first := or_empty (cell_at row ks firstIdx) in
        let last := or_empty (cell_at row ks lastIdx) in
        trim (first ++ " " ++ last)
    | Some _, None => or_empty (cell_at row ks firstIdx)
    | None, _ =>
        match find is_fuzzy_name ks with
        | Some fuzzyKey =>
            if is_empty fuzzyKey then "" else or_empty (get_prop fuzzyKey row)
        | None => ""
        end
    end.

(** ** The pipeline ([processFiles]) *)

Record CleaningStats : Type := mkStats {
  totalProcessed : nat;
  totalValid : nat;
  totalDuplicates : nat;
  invalidBreakdown : gmap EmailStatus nat
}.

Record ProcessingResult : Type := mkResult {
  stats : CleaningStats;
  validRecords : list obj;
  invalidRecords : list obj
}.

(** A file as the pipeline sees it: its name and what [parseFile] resolved
    to, [None] when the parser rejected the file. *)
Record File : Type := mkFile {
  file_name : string;
  file_rows : option (list obj)
}.

(** The source exists in two variants: the basic one has no name resolver
    and spells the insertion into the set out in two branches. *)
Inductive Variant : Type := Basic | Extended.

(** Step 1, ingestion and consolidation: every row is copied and tagged
    with [_sourceFile]; a rejected file contributes nothing. *)
Definition enrich (name : string) (row : obj) : obj :=
  set_prop "_sourceFile" (VStr name) (assign [] row).

Definition ingest (files : list File) : list obj :=
  fold_left
    (fun allRecords file =>
       match file_rows file with
       | Some data => app allRecords (map (enrich (file_name file)) data)
       | None => allRecords
       end)
    files [].

Definition initial_breakdown : gmap EmailStatus nat :=
  <[VALID := 0]> (<[MISSING_MX := 0]> (<[DUPLICATE := 0]> (<[TYPO_DOMAIN := 0]>
  (<[ROLE_BASED := 0]> (<[DISPOSABLE := 0]> (<[INVALID_FORMAT := 0]> ∅)))))).

Definition initial_stats : CleaningStats :=
  mkStats 0 0 0 initial_breakdown.

Record LoopState : Type := mkLoop {
  uniqueEmails : gset string;
  processedRecords : list obj;
  loop_stats : CleaningStats
}.

Definition initial_loop : LoopState := mkLoop ∅ [] initial_stats.

Definition rawEmail_of (row : obj) : string :=
  match findEmailKey row with
  | Some emailKey => to_string (get_prop emailKey row)
  | None => ""
  end.

Definition normalizedEmail_of (row : obj) : string :=
  trim (toLowerCase (rawEmail_of row)).

(** The status decision of one iteration, with the set it leaves behind. *)
Definition assign_status (v : Variant) (seen : gset string)
    (rawEmail normalizedEmail : string) : EmailStatus * gset string :=
  if is_empty rawEmail then (INVALID_FORMAT, seen)
  else if bool_decide (normalizedEmail ∈ seen) then (DUPLICATE, seen)
  else
    let status := validateEmail normalizedEmail in
    match v with
    | Extended => (status, {[normalizedEmail]} ∪ seen)
    | Basic =>
        if bool_decide (status = VALID)
        then (status, {[normalizedEmail]} ∪ seen)
        else (status, {[normalizedEmail]} ∪ seen)
    end.

(** [stats.invalidBreakdown[status] = (stats.invalidBreakdown[status] || 0) + 1] *)
Definition bump (status : EmailStatus) (m : gmap EmailStatus nat)
    : gmap EmailStatus nat :=
  <[status := default 0 (m !! status) + 1]> m.

(** [stats.totalProcessed++] at the head of the iteration and the
    "Update Stats" block after the decision. *)
Definition update_stats (status : EmailStatus) (s : CleaningStats)
    : CleaningStats :=
  let processed := S (totalProcessed s) in
  if bool_decide (status = VALID)
  then mkStats processed (S (totalValid s)) (totalDuplicates s)
               (invalidBreakdown s)
  else mkStats processed (totalValid s)
               (if bool_decide (status = DUPLICATE)
                then S (totalDuplicates s) else totalDuplicates s)
               (bump status (invalidBreakdown s)).

(** The object literal pushed onto [processedRecords]; the row is spread
    last. *)
Definition make_record (v : Variant) (row : obj)
    (rawEmail normalizedEmail name : string) (status : EmailStatus) : obj :=
  let computed :=
    match v with
    | Extended =>
        [("original", VStr rawEmail); ("email", VStr normalizedEmail);
         ("name", VStr name); ("status", VStr (status_string status));
         ("sourceFile", get_prop "_sourceFile" row)]
    | Basic =>
        [("original", VStr rawEmail); ("email", VStr normalizedEmail);
         ("status", VStr (status_string status));
         ("sourceFile", get_prop "_sourceFile" row)]
    end in
  assign (literal computed) row.

Definition process_row (v : Variant) (st : LoopState) (row : obj) : LoopState :=
  let rawEmail := rawEmail_of row in
  let normalizedEmail := normalizedEmail_of row in
  let name := extractName row in
  let '(status, seen) :=
    assign_status v (uniqueEmails st) rawEmail normalizedEmail in
  mkLoop seen
         (app (processedRecords st)
              [make_record v row rawEmail normalizedEmail name status])
         (update_stats status (loop_stats st)).

Definition run_loop (v : Variant) (allRecords : list obj) : LoopState :=
  fold_left (process_row v) allRecords initial_loop.

(** [r.status === EmailStatus.VALID] *)
Definition status_is_valid (r : obj) : bool :=
  bool_decide (get_prop "status" r = VStr (status_string VALID)).

Definition finish (st : LoopState) : ProcessingResult :=
  mkResult (loop_stats st)
           (List.filter status_is_valid (processedRecords st))
           (List.filter (fun r => negb (status_is_valid r)) (processedRecords st)).

Definition processFiles (v : Variant) (files : list File) : ProcessingResult :=
  finish (run_loop v (ingest files)).

(** The statuses the loop assigns, row by row, starting from the set
    [seen]. *)
Fixpoint assigned_statuses (v : Variant) (seen : gset string)
    (rows : list obj) : list EmailStatus :=
  match rows with
  | [] => []
  | row :: rows' =>
      let '(status, seen') :=
        assign_status v seen (rawEmail_of row) (normalizedEmail_of row) in
      status :: assigned_statuses v seen' rows'
  end.

(** The set after the loop has run over [rows]. *)
Fixpoint seen_after (v : Variant) (seen : gset string) (rows : list obj)
    : gset string :=
  match rows with
  | [] => seen
  | row :: rows' =>
      seen_after v
        (snd (assign_status v seen (rawEmail_of row) (normalizedEmail_of row)))
        rows'
  end.

(** ** The export projection ([downloadCSV]) *)

Definition header_of (col : string) : string :=
  let header := col in
  let header := if String.eqb col "email" then "Email" else header in
  let header := if String.eqb col "name" then "Name" else header in
  let header := if String.eqb col "status" then "Status" else header in
  header.

(** The members of [Object.prototype], which every record and every
    projected row inherits: functions, and the accessor [__proto__] that
    yields the prototype. *)
Definition object_prototype_members : list string :=
  ["constructor"; "__defineGetter__"; "__defineSetter__"; "hasOwnProperty";
   "__lookupGetter__"; "__lookupSetter__"; "isPrototypeOf";
   "propertyIsEnumerable"; "toString"; "valueOf"; "__proto__";
   "toLocaleString"].

(** What a cell of an exported row holds: a value of the record, or the
    member of [Object.prototype] of the given name. *)
Inductive export_cell : Type :=
| Own (v : value)
| Inherited (member : string).

Definition export_row : Type := list (string * export_cell).

(** [record[col] || '']: an own property wins; an absent one is looked up
    in the prototype, whose members are all truthy. *)
Definition read_or_empty (col : string) (record : obj) : export_cell :=
  match lookup_prop col record with
  | Some v => Own (VStr (or_empty v))
  | None =>
      if array_includes col object_prototype_members then Inherited col
      else Own (VStr "")
  end.

(** [filtered[header] = c] on an object that has no own [__proto__]: the
    assignment to [__proto__] runs the setter of the prototype, which
    creates no property and, the value being a string or the prototype
    itself, changes nothing; any other key is set as an own property. *)
Definition assign_cell (header : string) (c : export_cell)
    (filtered : export_row)
    : export_row :=
  if String.eqb header "__proto__" then filtered
  else set_prop header c filtered.

Definition project_record (columns : list string) (record : obj) : export_row :=
  fold_left
    (fun filtered col =>
       assign_cell (header_of col) (read_or_empty col record) filtered)
    columns [].

(** A record handed over as it is. *)
Definition own_row (record : obj) : export_row :=
  map (fun kv => (fst kv, Own (snd kv))) record.

(** The rows handed to the serializer. *)
Definition exportData (data : list obj) (columns : list string)
    : list export_row :=
  if (0 <? length columns)%nat then map (project_record columns) data
  else map own_row data.

(** Inputs for the concrete cases: one file with the given rows, and rows
    with the single column [email]. *)
Definition one_file (rows : list obj) : list File := [mkFile "in.csv" (Some rows)].

Definition email_rows (cells : list string) : list obj :=
  map (fun c => [("email", VStr c)]) cells.

(** ** Definitions for the statements

    What the properties below are stated with: the normal form of an
    email, the parts of an address, the records and the set the loop
    produces row by row, and the readings of the specification that are
    compared with the code. *)

(** The normalized form of an email: [s.toLowerCase().trim()]. *)
Definition normalize (s : string) : string := trim (toLowerCase s).

(** A string that does not begin with white space. *)
Definition no_leading_space (s : string) : bool :=
  match s with
  | EmptyString => true
  | String c _ => negb (is_space c)
  end.

(** Every character of [s] satisfies [p]. *)
Fixpoint all_chars (p : ascii -> bool) (s : string) : bool :=
  match s with
  | EmptyString => true
  | String c s' => p c && all_chars p s'
  end.

Definition not_at (c : ascii) : bool := negb (Ascii.eqb c "@").

(** The local part and the domain in the words of the glossary: what stands
    before, and what stands after, the first [@]. *)
Fixpoint local_part (e : string) : string :=
  match e with
  | EmptyString => EmptyString
  | String c e' => if Ascii.eqb c "@" then EmptyString else String c (local_part e')
  end.

Fixpoint domain_part (e : string) : string :=
  match e with
  | EmptyString => EmptyString
  | String c e' => if Ascii.eqb c "@" then e' else domain_part e'
  end.

(** The membership checks in the order of the specification, first match
    winning. *)
Definition classify_by_priority (localPart domain : string) : EmailStatus :=
  if decide (domain ∈ TYPO_DOMAINS) then TYPO_DOMAIN
  else if decide (domain ∈ DISPOSABLE_DOMAINS) then DISPOSABLE
  else if decide (localPart ∈ ROLE_PREFIXES) then ROLE_BASED
  else VALID.

(** The records the loop emits, row by row, starting from the set [seen]. *)
Fixpoint emitted_records (v : Variant) (seen : gset string) (rows : list obj)
    : list obj :=
  match rows with
  | [] => []
  | row :: rows' =>
      let '(status, seen') :=
        assign_status v seen (rawEmail_of row) (normalizedEmail_of row) in
      make_record v row (rawEmail_of row) (normalizedEmail_of row)
                  (extractName row) status
      :: emitted_records v seen' rows'
  end.

(** The sum of all values of the breakdown. *)
Definition breakdown_sum (m : gmap EmailStatus nat) : nat :=
  map_fold (fun _ n acc => n + acc) 0 m.

(** What every iteration preserves. *)
Definition stats_invariant (s : CleaningStats) : Prop :=
  totalProcessed s = totalValid s + breakdown_sum (invalidBreakdown s)
  /\ invalidBreakdown s !! VALID = Some 0
  /\ invalidBreakdown s !! MISSING_MX = Some 0.

(** The set the loop holds when it reaches row [j]. *)
Definition seen_before (v : Variant) (rows : list obj) (j : nat) : gset string :=
  seen_after v ∅ (take j rows).


(** A cell that is not empty and holds nothing but white space. *)
Definition blank_cell (row : obj) : Prop :=
  rawEmail_of row <> EmptyString /\ normalizedEmail_of row = EmptyString.

(** A row without an email-like header. *)
Definition no_email_header (row : obj) : Prop :=
  Forall (fun k => includes "email" (toLowerCase k) = false) (keys row).

(** The first header, in column order, whose lowercased form satisfies
    [p]; and the cell under a header, [''] standing in for a falsy cell. *)
Definition first_header (p : string -> bool) (row : obj) : option string :=
  find (fun k => p (toLowerCase k)) (keys row).

Definition cell (row : obj) (k : string) : string := or_empty (get_prop k row).

(** The strategies in the words of the specification; [None] when a
    strategy does not apply. *)
Definition by_exact_header (names : list string) (row : obj) : option string :=
  option_map (cell row) (first_header (fun l => array_includes l names) row).

Definition by_first_and_last (row : obj) : option string :=
  match first_header is_first_name row, first_header is_last_name row with
  | Some f, Some l => Some (trim (cell row f ++ " " ++ cell row l))
  | _, _ => None
  end.

Definition by_first (row : obj) : option string :=
  option_map (cell row) (first_header is_first_name row).

Definition by_fuzzy (row : obj) : option string :=
  option_map (cell row) (find is_fuzzy_name (keys row)).

Fixpoint first_success (strategies : list (obj -> option string)) (row : obj)
    : string :=
  match strategies with
  | [] => ""
  | strategy :: rest =>
      match strategy row with
      | Some name => name
      | None => first_success rest row
      end
  end.

(** As stated: within strategy (a) the first qualifying header in column
    order wins. *)
Definition resolve_name_as_stated : obj -> string :=
  first_success
    [by_exact_header ["name"; "full name"; "fullname"];
     by_first_and_last; by_first; by_fuzzy].

(** As amended: strategy (a) tries "name", then "full name", then
    "fullname". *)
Definition resolve_name : obj -> string :=
  first_success
    [by_exact_header ["name"]; by_exact_header ["full name"];
     by_exact_header ["fullname"];
     by_first_and_last; by_first; by_fuzzy].

(** The projection in the words of the specification: one entry per listed
    field, in the order of the list, under the remapped header. *)
Definition project_as_stated (columns : list string) (record : obj)
    : export_row :=
  map (fun col => (header_of col, Own (VStr (or_empty (get_prop col record)))))
      columns.

(** ** Further definitions for the statements *)

(** An address of the shape the syntax pattern describes: a non-empty
    local part, [@], a non-empty domain, a dot and a top-level label of at
    least two letters. *)
Definition well_formed_address (e : string) : Prop :=
  exists l d t,
    e = l ++ String "@" (d ++ String "." t)
    /\ l <> EmptyString /\ all_chars (in_class local_class) l = true
    /\ d <> EmptyString /\ all_chars (in_class domain_class) d = true
    /\ 2 <= String.length t /\ all_chars (in_class alpha_class) t = true.

(** The rows one file contributes to the working list. *)
Definition rows_of_file (f : File) : list obj :=
  match file_rows f with
  | Some data => map (enrich (file_name f)) data
  | None => []
  end.

(** How often a status occurs in a list of statuses. *)
Definition count_status (k : EmailStatus) (l : list EmailStatus) : nat :=
  count_occ EmailStatus_eq_dec l k.

(** Rows whose raw email is not empty, the ones that reach the set. *)
Definition has_raw_email (row : obj) : bool := negb (is_empty (rawEmail_of row)).

(** Every key of the initial breakdown literal is present. *)
Definition all_keys_present (m : gmap EmailStatus nat) : Prop :=
  forall k, is_Some (m !! k).

(** The shape of the property list of an object: no key twice, and a key
    that is an array index comes after smaller indices only. *)
Definition canonical_object (o : obj) : Prop :=
  NoDup (keys o)
  /\ forall i j ki kj,
       i < j -> keys o !! i = Some ki -> keys o !! j = Some kj ->
       match array_index kj with
       | Some nj => exists ni, array_index ki = Some ni /\ (ni < nj)%N
       | None => True
       end.

(** The normalized email and the assigned status of every row, in
    processing order. *)
Fixpoint outcomes (v : Variant) (seen : gset string) (rows : list obj)
    : list (string * EmailStatus) :=
  match rows with
  | [] => []
  | row :: rows' =>
      let step :=
        assign_status v seen (rawEmail_of row) (normalizedEmail_of row) in
      (normalizedEmail_of row, fst step) :: outcomes v (snd step) rows'
  end.

Definition accepted (o : string * EmailStatus) : bool := bool_decide (snd o = VALID).
Definition rejected (o : string * EmailStatus) : bool := negb (accepted o).

(** ** The dashboard ([Dashboard], the consumer of the result)

    [barData] is [Object.entries(stats.invalidBreakdown)], filtered, mapped
    and sorted.  The entries come in the order in which the literal of
    [processFiles] creates the keys (all of them are created there, none is
    added later).  [Array.prototype.sort] is stable, and the comparator
    [b.value - a.value] orders by descending value, so the result is the
    stable descending sort, written here as an insertion sort. *)

Module Dashboard.

Definition COLORS (st : EmailStatus) : string :=
  match st with
  | VALID => "#10b981"
  | INVALID_FORMAT => "#ef4444"
  | DUPLICATE => "#f59e0b"
  | DISPOSABLE => "#6366f1"
  | TYPO_DOMAIN => "#ec4899"
  | ROLE_BASED => "#8b5cf6"
  | MISSING_MX => "#64748b"
  end.

Definition LABELS (st : EmailStatus) : string :=
  match st with
  | VALID => "Valid"
  | INVALID_FORMAT => "Syntax Error"
  | DUPLICATE => "Duplicate"
  | DISPOSABLE => "Disposable"
  | TYPO_DOMAIN => "Bad Domain"
  | ROLE_BASED => "Role Based"
  | MISSING_MX => "No MX Record"
  end.

Record Slice : Type := mkSlice {
  slice_name : string;
  slice_value : Z;
  slice_color : string
}.

Definition pieData (s : CleaningStats) : list Slice :=
  [mkSlice "Valid" (Z.of_nat (totalValid s)) (COLORS VALID);
   mkSlice "Invalid/Filtered"
           (Z.of_nat (totalProcessed s) - Z.of_nat (totalValid s))
           (COLORS INVALID_FORMAT)].

Definition breakdown_key_order : list EmailStatus :=
  [INVALID_FORMAT; DISPOSABLE; ROLE_BASED; TYPO_DOMAIN; DUPLICATE; MISSING_MX;
   VALID].

Definition entries (m : gmap EmailStatus nat) : list (EmailStatus * nat) :=
  omap (fun k => option_map (pair k) (m !! k)) breakdown_key_order.

Record Bar : Type := mkBar {
  bar_name : string;
  bar_value : nat;
  bar_key : EmailStatus
}.

Fixpoint insert_bar (b : Bar) (l : list Bar) : list Bar :=
  match l with
  | [] => [b]
  | c :: l' =>
      if (bar_value c <=? bar_value b)%nat then b :: l
      else c :: insert_bar b l'
  end.

Definition sort_bars (l : list Bar) : list Bar := foldr insert_bar [] l.

Definition barData (s : CleaningStats) : list Bar :=
  sort_bars
    (map (fun kv => mkBar (LABELS (fst kv)) (snd kv) (fst kv))
         (List.filter (fun kv => (0 <? snd kv)%nat)
                      (entries (invalidBreakdown s)))).

End Dashboard.

(** ** The file picker ([FileUpload])

    The handlers compute the list handed to [onFilesChange]; [None] stands
    for a handler that returns without calling it.  Of a picked file only
    the name and the media type matter here. *)

Module FileUpload.

Record PickedFile : Type := mkPicked {
  picked_name : string;
  picked_type : string
}.

(** [s.endsWith(suffix)] *)
Fixpoint endsWith (suffix s : string) : bool :=
  String.eqb suffix s
  || match s with
     | EmptyString => false
     | String _ s' => endsWith suffix s'
     end.

Definition is_csv (f : PickedFile) : bool :=
  String.eqb (picked_type f) "text/csv" || endsWith ".csv" (picked_name f).

Definition handleDrop (files dropped : list PickedFile)
    : option (list PickedFile) :=
  if (0 <? length dropped)%nat
  then Some (app files (List.filter is_csv dropped))
  else None.

Definition handleFileInput (files chosen : list PickedFile)
    : option (list PickedFile) :=
  if (0 <? length chosen)%nat then Some (app files chosen) else None.

(** [newFiles.splice(index, 1)] for an index that is not negative: the
    start is clamped to the length, and at most one element is dropped. *)
Definition splice_one {A} (index : nat) (l : list A) : list A :=
  let start := Nat.min index (length l) in
  let deleteCount := Nat.min 1 (length l - start) in
  app (take start l) (drop (start + deleteCount) l).

Definition removeFile (files : list PickedFile) (index : nat)
    : list PickedFile :=
  splice_one index files.

End FileUpload.

(** * Properties *)

(** ** Checks on concrete inputs *)

Example toLowerCase_ex : toLowerCase "  Foo@BAR.com  " = "  foo@bar.com  ".
Proof. reflexivity. Qed.

Example trim_ex : trim (toLowerCase "  Foo@BAR.com  ") = "foo@bar.com".
Proof. reflexivity. Qed.

Example split_ex : split "@" "admin@gmal.com" = ["admin"; "gmal.com"].
Proof. reflexivity. Qed.

Example split_empty_ex : split "@" "" = [""].
Proof. reflexivity. Qed.

Example validate_admin_gmal : validateEmail "admin@gmal.com" = TYPO_DOMAIN.
Proof. vm_compute. reflexivity. Qed.

Example validate_plain : validateEmail "  Foo@BAR.com  " = VALID.
Proof. vm_compute. reflexivity. Qed.

Example validate_role : validateEmail "info@acme.io" = ROLE_BASED.
Proof. vm_compute. reflexivity. Qed.

Example validate_disposable : validateEmail "bob@yopmail.com" = DISPOSABLE.
Proof. vm_compute. reflexivity. Qed.

Example validate_short_tld : validateEmail "bob@acme.c" = INVALID_FORMAT.
Proof. vm_compute. reflexivity. Qed.

Example validate_two_ats : validateEmail "a@b@acme.com" = INVALID_FORMAT.
Proof. vm_compute. reflexivity. Qed.

Example set_new_key : set_prop "b" (VStr "2") [("a", VStr "1")] = [("a", VStr "1"); ("b", VStr "2")].
Proof. reflexivity. Qed.

Example set_old_key :
  set_prop "a" (VStr "9") [("a", VStr "1"); ("b", VStr "2")] = [("a", VStr "9"); ("b", VStr "2")].
Proof. reflexivity. Qed.

Example set_index_key :
  set_prop "1" (VStr "x") [("7", VStr "s"); ("a", VStr "1")]
  = [("1", VStr "x"); ("7", VStr "s"); ("a", VStr "1")].
Proof. reflexivity. Qed.

Example extractName_first_last :
  extractName [("First Name", VStr "Ann"); ("Email", VStr "a@x.com");
               ("LastName", VStr "Lee")] = "Ann Lee".
Proof. reflexivity. Qed.

Example extractName_fuzzy :
  extractName [("File Name", VStr "f.csv"); ("Customer Name", VStr "Bob")] = "Bob".
Proof. reflexivity. Qed.

Example dedup_example_records :
  map (get_prop "status")
      (processedRecords
         (run_loop Extended (ingest (one_file (email_rows ["a@x.com"; "A@X.COM"; "a@x.com"])))))
  = [VStr "VALID"; VStr "DUPLICATE"; VStr "DUPLICATE"].
Proof. vm_compute. reflexivity. Qed.

(** ** Normalization *)

Ltac each_char c :=
  destruct c as [[] [] [] [] [] [] [] []]; vm_compute; try reflexivity;
  try discriminate; try tauto.

Section StringFacts.

Lemma lower_char_idem c : lower_char (lower_char c) = lower_char c.
Proof. each_char c. Qed.

Lemma is_space_lower_char c : is_space (lower_char c) = is_space c.
Proof. each_char c. Qed.

Lemma lower_char_at c : Ascii.eqb "@" (lower_char c) = Ascii.eqb "@" c.
Proof. each_char c. Qed.

Lemma is_space_not_at c : is_space c = true -> Ascii.eqb "@" c = false.
Proof. each_char c. Qed.

Lemma toLowerCase_idem s : toLowerCase (toLowerCase s) = toLowerCase s.
Proof.
  induction s as [|c s IH]; simpl; [reflexivity|].
  now rewrite lower_char_idem, IH.
Qed.

Lemma toLowerCase_trimStart s :
  toLowerCase (trimStart s) = trimStart (toLowerCase s).
Proof.
  induction s as [|c s IH]; simpl; [reflexivity|].
  rewrite is_space_lower_char. destruct (is_space c); [exact IH | reflexivity].
Qed.

Lemma toLowerCase_trimEnd s :
  toLowerCase (trimEnd s) = trimEnd (toLowerCase s).
Proof.
  induction s as [|c s IH]; simpl; [reflexivity|].
  rewrite <- IH, is_space_lower_char.
  destruct (trimEnd s); simpl; [destruct (is_space c)|]; reflexivity.
Qed.

Lemma toLowerCase_trim s : toLowerCase (trim s) = trim (toLowerCase s).
Proof. unfold trim. now rewrite toLowerCase_trimEnd, toLowerCase_trimStart. Qed.

Lemma trimEnd_idem s : trimEnd (trimEnd s) = trimEnd s.
Proof.
  induction s as [|c s IH]; simpl; [reflexivity|].
  destruct (trimEnd s) as [|d r] eqn:E.
  - destruct (is_space c) eqn:Hc; simpl; [reflexivity | now rewrite Hc].
  - change (trimEnd (String c (String d r))) with
      (match trimEnd (String d r) with
       | EmptyString => if is_space c then EmptyString else String c EmptyString
       | r' => String c r'
       end).
    now rewrite IH.
Qed.

Lemma trimStart_no_leading s : no_leading_space (trimStart s) = true.
Proof.
  induction s as [|c s IH]; simpl; [reflexivity|].
  destruct (is_space c) eqn:Hc; [exact IH | simpl; now rewrite Hc].
Qed.

Lemma trimStart_fixed s : no_leading_space s = true -> trimStart s = s.
Proof.
  destruct s as [|c s]; simpl; [reflexivity|].
  now destruct (is_space c).
Qed.

Lemma trimEnd_no_leading s :
  no_leading_space s = true -> no_leading_space (trimEnd s) = true.
Proof.
  destruct s as [|c s]; simpl; [reflexivity|].
  intros Hc. destruct (trimEnd s); simpl; [|exact Hc].
  destruct (is_space c) eqn:E; simpl; [reflexivity | now rewrite E].
Qed.

Lemma trim_idem s : trim (trim s) = trim s.
Proof.
  unfold trim.
  rewrite (trimStart_fixed (trimEnd (trimStart s))).
  - apply trimEnd_idem.
  - apply trimEnd_no_leading, trimStart_no_leading.
Qed.

Lemma normalize_idem s : normalize (normalize s) = normalize s.
Proof.
  unfold normalize.
  now rewrite toLowerCase_trim, toLowerCase_idem, trim_idem.
Qed.

(** [includes "@"] is a test for an occurrence of the character. *)
Lemma includes_at_cons c s :
  includes "@" (String c s) = Ascii.eqb "@" c || includes "@" s.
Proof. simpl. now rewrite andb_true_r. Qed.

Lemma includes_at_nil : includes "@" EmptyString = false.
Proof. reflexivity. Qed.

Lemma includes_at_toLowerCase s :
  includes "@" (toLowerCase s) = includes "@" s.
Proof.
  induction s as [|c s IH]; [reflexivity|].
  cbn [toLowerCase]. now rewrite !includes_at_cons, lower_char_at, IH.
Qed.

Lemma includes_at_trimStart s : includes "@" (trimStart s) = includes "@" s.
Proof.
  induction s as [|c s IH]; [reflexivity|].
  cbn [trimStart]. destruct (is_space c) eqn:Hc; [|reflexivity].
  now rewrite includes_at_cons, (is_space_not_at _ Hc), IH.
Qed.

Lemma includes_at_trimEnd s : includes "@" (trimEnd s) = includes "@" s.
Proof.
  induction s as [|c s IH]; [reflexivity|].
  rewrite includes_at_cons, <- IH. cbn [trimEnd].
  destruct (trimEnd s) as [|d r].
  - destruct (is_space c) eqn:Hc.
    + now rewrite (is_space_not_at _ Hc).
    + now rewrite includes_at_cons.
  - now rewrite includes_at_cons.
Qed.

Lemma includes_at_normalize s : includes "@" (normalize s) = includes "@" s.
Proof.
  unfold normalize, trim.
  now rewrite includes_at_trimEnd, includes_at_trimStart, includes_at_toLowerCase.
Qed.

Lemma includes_at_nonempty s : includes "@" s = true -> is_empty s = false.
Proof. now destruct s. Qed.

End StringFacts.

(** ** The syntax pattern *)

Section RegexFacts.

Lemma nullable_sound r : nullable r = true -> Matches r EmptyString.
Proof.
  induction r as [| |cs|r1 IH1 r2 IH2|r1 IH1 r2 IH2|r IH]; simpl; intros H;
    try discriminate.
  - constructor.
  - apply andb_true_iff in H as [H1 H2].
    change EmptyString with (EmptyString ++ EmptyString).
    constructor; auto.
  - apply orb_true_iff in H as [H|H]; [apply MAltL | apply MAltR]; auto.
  - constructor.
Qed.

Lemma deriv_sound c r : forall s, Matches (deriv c r) s -> Matches r (String c s).
Proof.
  induction r as [| |cs|r1 IH1 r2 IH2|r1 IH1 r2 IH2|r IH]; simpl; intros s H.
  - inversion H.
  - inversion H.
  - destruct (in_class cs c) eqn:Hc; inversion H; subst. now constructor.
  - assert (Hcat : forall t, Matches (Cat (deriv c r1) r2) t ->
                             Matches (Cat r1 r2) (String c t)).
    { intros t Ht. inversion Ht; subst.
      change (String c (s1 ++ s2)) with (String c s1 ++ s2).
      constructor; auto. }
    destruct (nullable r1) eqn:Hn; [|now apply Hcat].
    inversion H; subst; [now apply Hcat|].
    change (String c s) with (EmptyString ++ String c s).
    constructor; [now apply nullable_sound | auto].
  - inversion H; subst; [apply MAltL | apply MAltR]; auto.
  - inversion H; subst.
    change (String c (s1 ++ s2)) with (String c s1 ++ s2).
    constructor; auto.
Qed.

Lemma test_sound s : forall r, test r s = true -> Matches r s.
Proof.
  induction s as [|c s IH]; simpl; intros r H.
  - now apply nullable_sound.
  - now apply deriv_sound, IH.
Qed.

Lemma all_chars_app p s t :
  all_chars p (s ++ t) = all_chars p s && all_chars p t.
Proof.
  induction s as [|c s IH]; simpl; [reflexivity|].
  now rewrite IH, andb_assoc.
Qed.

Lemma all_chars_weaken (p q : ascii -> bool) s :
  (forall c, p c = true -> q c = true) ->
  all_chars p s = true -> all_chars q s = true.
Proof.
  intros Hpq. induction s as [|c s IH]; simpl; [reflexivity|].
  intros H. apply andb_true_iff in H as [H1 H2].
  now rewrite (Hpq _ H1), IH.
Qed.

Lemma Matches_class cs s :
  Matches (Class cs) s -> all_chars (in_class cs) s = true /\ s <> EmptyString.
Proof.
  intros H. inversion H; subst. simpl. now rewrite H1.
Qed.

Lemma Matches_star_class cs s :
  Matches (Star (Class cs)) s -> all_chars (in_class cs) s = true.
Proof.
  intros H. remember (Star (Class cs)) as r eqn:Er.
  induction H; try discriminate; [reflexivity|].
  injection Er as ->.
  rewrite all_chars_app, IHMatches2 by reflexivity.
  destruct (Matches_class _ _ H) as [-> _]. reflexivity.
Qed.

Lemma Matches_plus_class cs s :
  Matches (Plus (Class cs)) s ->
  all_chars (in_class cs) s = true /\ s <> EmptyString.
Proof.
  intros H. inversion H; subst.
  destruct (Matches_class _ _ H2) as [H1 Hne].
  split.
  - now rewrite all_chars_app, H1, (Matches_star_class _ _ H4).
  - destruct s1; [congruence | discriminate].
Qed.

Lemma local_class_not_at c : in_class local_class c = true -> not_at c = true.
Proof. each_char c. Qed.

Lemma domain_class_not_at c : in_class domain_class c = true -> not_at c = true.
Proof. each_char c. Qed.

Lemma alpha_class_not_at c : in_class alpha_class c = true -> not_at c = true.
Proof. each_char c. Qed.

(** A string accepted by [EMAIL_REGEX] is a non-empty local part, one [@]
    and a rest, neither of which holds a further [@]. *)
Lemma EMAIL_REGEX_shape e :
  test EMAIL_REGEX e = true ->
  exists l d, e = l ++ String "@" d
              /\ all_chars not_at l = true /\ all_chars not_at d = true
              /\ l <> EmptyString.
Proof.
  intros H. apply test_sound in H. unfold EMAIL_REGEX, Chr, AtLeast2 in H.
  inversion H as [| |? ? l rest Hl Hrest| | | |]; subst; clear H.
  inversion Hrest as [| |? ? a rest2 Ha Hrest2| | | |]; subst; clear Hrest.
  inversion Hrest2 as [| |? ? dom rest3 Hdom Hrest3| | | |]; subst; clear Hrest2.
  inversion Hrest3 as [| |? ? dot tld Hdot Htld| | | |]; subst; clear Hrest3.
  inversion Htld as [| |? ? t1 tl2 Ht1 Htl2| | | |]; subst; clear Htld.
  inversion Htl2 as [| |? ? t2 t3 Ht2 Ht3| | | |]; subst; clear Htl2.
  inversion Ha as [|? c Hc| | | | |]; subst; clear Ha.
  assert (c = "@"%char) as ->.
  { revert Hc. clear. each_char c. }
  apply Matches_plus_class in Hl as [Hl Hlne].
  apply Matches_plus_class in Hdom as [Hdom _].
  apply Matches_class in Hdot as [Hdot _].
  apply Matches_class in Ht1 as [Ht1 _].
  apply Matches_class in Ht2 as [Ht2 _].
  apply Matches_star_class in Ht3.
  exists l, (dom ++ dot ++ t1 ++ t2 ++ t3). repeat split; auto.
  - eapply all_chars_weaken; [apply local_class_not_at | exact Hl].
  - assert (Hd : all_chars not_at dot = true).
    { eapply all_chars_weaken; [|exact Hdot]. clear. intros c. each_char c. }
    rewrite !all_chars_app, Hd.
    rewrite (all_chars_weaken _ not_at dom domain_class_not_at Hdom).
    rewrite (all_chars_weaken _ not_at t1 alpha_class_not_at Ht1).
    rewrite (all_chars_weaken _ not_at t2 alpha_class_not_at Ht2).
    now rewrite (all_chars_weaken _ not_at t3 alpha_class_not_at Ht3).
Qed.

End RegexFacts.

(** ** The classifier *)

Section ClassifierFacts.

Lemma split_no_sep d :
  all_chars not_at d = true -> split "@" d = [d].
Proof.
  induction d as [|c d IH]; simpl; [reflexivity|].
  unfold not_at at 1. intros H. apply andb_true_iff in H as [Hc Hd].
  apply negb_true_iff in Hc. rewrite Hc, (IH Hd). reflexivity.
Qed.

Lemma split_at l d :
  all_chars not_at l = true -> all_chars not_at d = true ->
  split "@" (l ++ String "@" d) = [l; d].
Proof.
  intros Hl Hd. induction l as [|c l IH]; simpl.
  - now rewrite split_no_sep.
  - simpl in Hl. unfold not_at at 1 in Hl.
    apply andb_true_iff in Hl as [Hc Hl]. apply negb_true_iff in Hc.
    rewrite Hc, (IH Hl). reflexivity.
Qed.

Lemma local_part_at l d :
  all_chars not_at l = true -> local_part (l ++ String "@" d) = l.
Proof.
  induction l as [|c l IH]; simpl; [reflexivity|].
  unfold not_at at 1. intros H. apply andb_true_iff in H as [Hc Hl].
  apply negb_true_iff in Hc. now rewrite Hc, (IH Hl).
Qed.

Lemma domain_part_at l d :
  all_chars not_at l = true -> domain_part (l ++ String "@" d) = d.
Proof.
  induction l as [|c l IH]; simpl; [reflexivity|].
  unfold not_at at 1. intros H. apply andb_true_iff in H as [Hc Hl].
  apply negb_true_iff in Hc. now rewrite Hc, (IH Hl).
Qed.

Lemma includes_at_app l d : includes "@" (l ++ String "@" d) = true.
Proof.
  induction l as [|c l IH]; [reflexivity|].
  change (String c l ++ String "@" d) with (String c (l ++ String "@" d)).
  rewrite includes_at_cons, IH. apply orb_true_r.
Qed.

Lemma has_Some (set : gset string) k :
  has set (Some k) = bool_decide (k ∈ set).
Proof. reflexivity. Qed.

Lemma chain_bool_decide (T D R : gset string) (l d : string) :
  (if bool_decide (d ∈ T) then TYPO_DOMAIN
   else if bool_decide (d ∈ D) then DISPOSABLE
   else if bool_decide (l ∈ R) then ROLE_BASED else VALID)
  = (if decide (d ∈ T) then TYPO_DOMAIN
     else if decide (d ∈ D) then DISPOSABLE
     else if decide (l ∈ R) then ROLE_BASED else VALID).
Proof.
  repeat (case_bool_decide; case_decide; try contradiction; try reflexivity).
Qed.

Lemma chain_cases (T D R : gset string) (l d : string) :
  let verdict :=
    if decide (d ∈ T) then TYPO_DOMAIN
    else if decide (d ∈ D) then DISPOSABLE
    else if decide (l ∈ R) then ROLE_BASED else VALID in
  (d ∈ T -> verdict = TYPO_DOMAIN)
  /\ (d ∉ T -> d ∈ D -> verdict = DISPOSABLE)
  /\ (d ∉ T -> d ∉ D -> l ∈ R -> verdict = ROLE_BASED).
Proof.
  simpl. repeat split; intros; repeat case_decide; try reflexivity; contradiction.
Qed.

(** The guard of [validateEmail] lets an input through exactly when it
    holds an [@]. *)
Lemma validateEmail_guard s :
  is_empty s || negb (includes "@" s) = negb (includes "@" s).
Proof. destruct s; reflexivity. Qed.

End ClassifierFacts.

(** C1. Whenever the normalized input matches the syntax pattern, the
    classifier's verdict is the outcome of the three membership checks in
    the order typo domain, disposable domain, role prefix, the first hit
    deciding; hence a typo domain yields [TYPO_DOMAIN] whatever the local
    part is, also when the local part is a role prefix. *)
Theorem validateEmail_priority (s : string) :
  test EMAIL_REGEX (normalize s) = true ->
  validateEmail s
  = classify_by_priority (local_part (normalize s)) (domain_part (normalize s))
  /\ (domain_part (normalize s) ∈ TYPO_DOMAINS -> validateEmail s = TYPO_DOMAIN)
  /\ (domain_part (normalize s) ∉ TYPO_DOMAINS ->
      domain_part (normalize s) ∈ DISPOSABLE_DOMAINS ->
      validateEmail s = DISPOSABLE)
  /\ (domain_part (normalize s) ∉ TYPO_DOMAINS ->
      domain_part (normalize s) ∉ DISPOSABLE_DOMAINS ->
      local_part (normalize s) ∈ ROLE_PREFIXES ->
      validateEmail s = ROLE_BASED).
Proof.
  intros Hre.
  assert (Heq : validateEmail s
    = classify_by_priority (local_part (normalize s)) (domain_part (normalize s))).
  { destruct (EMAIL_REGEX_shape _ Hre) as (l & d & He & Hl & Hd & _).
    unfold validateEmail. rewrite validateEmail_guard.
    fold (normalize s). rewrite <- includes_at_normalize, Hre, He.
    rewrite includes_at_app, split_at by assumption. simpl negb. cbv iota.
    rewrite local_part_at, domain_part_at by assumption.
    cbn [lookup list_lookup]. rewrite !has_Some.
    apply chain_bool_decide. }
  split; [exact Heq|]. rewrite Heq. apply chain_cases.
Qed.

Lemma validateEmail_priority_witness :
  test EMAIL_REGEX (normalize "admin@gmal.com") = true
  /\ "gmal.com" ∈ TYPO_DOMAINS /\ "admin" ∈ ROLE_PREFIXES
  /\ validateEmail "admin@gmal.com" = TYPO_DOMAIN.
Proof.
  assert (Hre : test EMAIL_REGEX (normalize "admin@gmal.com") = true)
    by (vm_compute; reflexivity).
  assert (Hd : "gmal.com" ∈ TYPO_DOMAINS)
    by (apply (bool_decide_unpack _); vm_compute; exact I).
  split; [exact Hre|]. split; [exact Hd|].
  split; [apply (bool_decide_unpack _); vm_compute; exact I|].
  exact (proj1 (proj2 (validateEmail_priority "admin@gmal.com" Hre)) Hd).
Defined.

(** C8. The classifier normalizes on its own: an input and its
    lowercase-trimmed form get the same status. *)
Theorem validateEmail_normalize (s : string) :
  validateEmail (normalize s) = validateEmail s
  /\ validateEmail "  Foo@BAR.com  " = validateEmail "foo@bar.com".
Proof.
  split; [|vm_compute; reflexivity].
  unfold validateEmail. rewrite !validateEmail_guard.
  fold (normalize (normalize s)). fold (normalize s).
  now rewrite normalize_idem, includes_at_normalize.
Qed.

(** ** The loop *)

Section LoopFacts.

Context (v : Variant).

Lemma is_empty_false s : is_empty s = false <-> s <> EmptyString.
Proof. destruct s; simpl; split; congruence. Qed.

Lemma is_empty_true s : is_empty s = true <-> s = EmptyString.
Proof. destruct s; simpl; split; congruence. Qed.

(** Both variants take the same decision. *)
Lemma assign_status_cases seen raw norm :
  assign_status v seen raw norm
  = if is_empty raw then (INVALID_FORMAT, seen)
    else if bool_decide (norm ∈ seen) then (DUPLICATE, seen)
    else (validateEmail norm, {[norm]} ∪ seen).
Proof.
  unfold assign_status. destruct v; [|reflexivity].
  destruct (is_empty raw); [reflexivity|].
  destruct (bool_decide (norm ∈ seen)); [reflexivity|].
  now destruct (bool_decide (validateEmail norm = VALID)).
Qed.

Lemma run_loop_unfold rows : forall st,
  fold_left (process_row v) rows st
  = mkLoop (seen_after v (uniqueEmails st) rows)
           (app (processedRecords st) (emitted_records v (uniqueEmails st) rows))
           (fold_left (fun s status => update_stats status s)
                      (assigned_statuses v (uniqueEmails st) rows)
                      (loop_stats st)).
Proof.
  induction rows as [|row rows IH]; intros [seen recs s]; simpl.
  - now rewrite app_nil_r.
  - rewrite IH. unfold process_row. simpl.
    destruct (assign_status v seen (rawEmail_of row) (normalizedEmail_of row))
      as [status seen'] eqn:E.
    simpl. now rewrite <- app_assoc.
Qed.

Lemma elem_of_seen_after rows : forall seen x,
  x ∈ seen_after v seen rows
  <-> x ∈ seen \/ exists r, r ∈ rows /\ rawEmail_of r <> EmptyString
                            /\ normalizedEmail_of r = x.
Proof.
  induction rows as [|row rows IH]; intros seen x; simpl.
  - split; [now left|]. intros [H|(r & Hr & _)]; [exact H|].
    now apply not_elem_of_nil in Hr.
  - rewrite IH, assign_status_cases. clear IH.
    destruct (is_empty (rawEmail_of row)) eqn:Hraw; simpl.
    + apply is_empty_true in Hraw. split.
      * intros [H|(r & Hr & Hne & Hx)]; [now left|].
        right. exists r. split; [now apply list_elem_of_further | easy].
      * intros [H|(r & Hr & Hne & Hx)]; [now left|].
        apply elem_of_cons in Hr as [->|Hr]; [congruence|].
        right. now exists r.
    + apply is_empty_false in Hraw.
      destruct (bool_decide (normalizedEmail_of row ∈ seen)) eqn:Hin; simpl.
      * apply bool_decide_eq_true in Hin. split.
        -- intros [H|(r & Hr & Hne & Hx)]; [now left|].
           right. exists r. split; [now apply list_elem_of_further | easy].
        -- intros [H|(r & Hr & Hne & Hx)]; [now left|].
           apply elem_of_cons in Hr as [->|Hr]; [left; congruence|].
           right. now exists r.
      * split.
        -- intros [H|(r & Hr & Hne & Hx)].
           ++ apply elem_of_union in H as [H|H]; [|now left].
              apply elem_of_singleton in H. right. exists row.
              split; [apply list_elem_of_here | easy].
           ++ right. exists r. split; [now apply list_elem_of_further | easy].
        -- intros [H|(r & Hr & Hne & Hx)].
           ++ left. apply elem_of_union. now right.
           ++ apply elem_of_cons in Hr as [->|Hr].
              ** left. apply elem_of_union. left. now apply elem_of_singleton.
              ** right. now exists r.
Qed.

Lemma assigned_statuses_lookup rows : forall seen j rj,
  rows !! j = Some rj ->
  assigned_statuses v seen rows !! j
  = Some (fst (assign_status v (seen_after v seen (take j rows))
                             (rawEmail_of rj) (normalizedEmail_of rj))).
Proof.
  induction rows as [|row rows IH]; intros seen j rj Hj; [discriminate|].
  simpl.
  destruct (assign_status v seen (rawEmail_of row) (normalizedEmail_of row))
    as [status seen'] eqn:E.
  destruct j as [|j]; simpl in *.
  - injection Hj as <-. now rewrite E.
  - rewrite E. simpl. now apply IH.
Qed.

Lemma assigned_statuses_length rows : forall seen,
  length (assigned_statuses v seen rows) = length rows.
Proof.
  induction rows as [|row rows IH]; intros seen; simpl; [reflexivity|].
  destruct (assign_status v seen (rawEmail_of row) (normalizedEmail_of row)).
  simpl. now rewrite IH.
Qed.

(** The loop never assigns the reserved status. *)
Lemma validateEmail_not_MISSING_MX s : validateEmail s <> MISSING_MX.
Proof.
  unfold validateEmail.
  repeat match goal with |- (if ?b then _ else _) <> _ => destruct b end;
    discriminate.
Qed.

Lemma validateEmail_not_DUPLICATE s : validateEmail s <> DUPLICATE.
Proof.
  unfold validateEmail.
  repeat match goal with |- (if ?b then _ else _) <> _ => destruct b end;
    discriminate.
Qed.

Lemma assign_status_not_MISSING_MX seen raw norm :
  fst (assign_status v seen raw norm) <> MISSING_MX.
Proof.
  rewrite assign_status_cases.
  destruct (is_empty raw); [discriminate|].
  destruct (bool_decide (norm ∈ seen)); [discriminate|].
  apply validateEmail_not_MISSING_MX.
Qed.

Lemma assigned_statuses_not_MISSING_MX rows : forall seen,
  MISSING_MX ∉ assigned_statuses v seen rows.
Proof.
  induction rows as [|row rows IH]; intros seen; simpl.
  - apply not_elem_of_nil.
  - pose proof (assign_status_not_MISSING_MX seen (rawEmail_of row)
                  (normalizedEmail_of row)) as Hne.
    destruct (assign_status v seen (rawEmail_of row) (normalizedEmail_of row))
      as [status seen'].
    apply not_elem_of_cons. split; [simpl in Hne; congruence | apply IH].
Qed.

End LoopFacts.

(** ** Statistics *)

Section StatsFacts.

Lemma breakdown_sum_bump status (m : gmap EmailStatus nat) :
  breakdown_sum (bump status m) = S (breakdown_sum m).
Proof.
  unfold breakdown_sum, bump.
  destruct (m !! status) as [n|] eqn:E; simpl.
  - rewrite <- (insert_delete_eq m).
    rewrite map_fold_insert_L; [|intros; lia|apply lookup_delete_eq].
    rewrite (map_fold_delete_L _ _ status n m); [lia|intros; lia|exact E].
  - rewrite map_fold_insert_L; [lia|intros; lia|exact E].
Qed.

Lemma bump_lookup_ne status other (m : gmap EmailStatus nat) :
  status <> other -> bump status m !! other = m !! other.
Proof. intros Hne. unfold bump. now rewrite lookup_insert_ne. Qed.

Lemma initial_stats_invariant : stats_invariant initial_stats.
Proof. repeat split. Qed.

Lemma update_stats_invariant status s :
  status <> MISSING_MX ->
  stats_invariant s -> stats_invariant (update_stats status s).
Proof.
  intros Hmx (Hsum & Hvalid & Hmissing). unfold update_stats, stats_invariant.
  case_bool_decide as Hv; simpl.
  - repeat split; [lia | assumption | assumption].
  - rewrite breakdown_sum_bump, !bump_lookup_ne by congruence.
    repeat split; [lia | assumption | assumption].
Qed.

Lemma fold_update_stats_invariant statuses : forall s,
  MISSING_MX ∉ statuses ->
  stats_invariant s ->
  stats_invariant (fold_left (fun s status => update_stats status s) statuses s).
Proof.
  induction statuses as [|status statuses IH]; intros s Hmx Hs; simpl; [exact Hs|].
  apply not_elem_of_cons in Hmx as [Hne Hmx].
  apply IH; [exact Hmx|]. apply update_stats_invariant; [congruence | exact Hs].
Qed.

Lemma processFiles_stats v files :
  stats (processFiles v files)
  = fold_left (fun s status => update_stats status s)
              (assigned_statuses v ∅ (ingest files)) initial_stats.
Proof.
  unfold processFiles, finish, run_loop. simpl.
  now rewrite run_loop_unfold.
Qed.

End StatsFacts.

(** C4. After every run the number of processed rows is the number of valid
    ones plus the sum of all values of the breakdown, and the breakdown's
    [VALID] entry is still zero. *)
Theorem stats_accounting (v : Variant) (files : list File) :
  let s := stats (processFiles v files) in
  totalProcessed s = totalValid s + breakdown_sum (invalidBreakdown s)
  /\ invalidBreakdown s !! VALID = Some 0.
Proof.
  intros s.
  assert (H : stats_invariant s).
  { unfold s. rewrite processFiles_stats.
    apply fold_update_stats_invariant.
    - apply assigned_statuses_not_MISSING_MX.
    - apply initial_stats_invariant. }
  destruct H as (H1 & H2 & _). now split.
Qed.

(** ** Deduplication *)

Section DedupFacts.

Context (v : Variant).

Lemma elem_of_seen_before rows j x :
  x ∈ seen_before v rows j
  <-> exists i ri, i < j /\ rows !! i = Some ri
                   /\ rawEmail_of ri <> EmptyString
                   /\ normalizedEmail_of ri = x.
Proof.
  unfold seen_before. rewrite elem_of_seen_after. split.
  - intros [H|(r & Hr & Hne & Hx)]; [now apply not_elem_of_empty in H|].
    apply list_elem_of_lookup in Hr as [i Hi].
    apply lookup_take_Some in Hi as [Hi Hlt].
    now exists i, r.
  - intros (i & ri & Hlt & Hi & Hne & Hx). right. exists ri.
    split; [|easy].
    apply list_elem_of_lookup. exists i. now apply lookup_take_Some.
Qed.

Lemma status_at rows j rj :
  rows !! j = Some rj ->
  assigned_statuses v ∅ rows !! j
  = Some (if is_empty (rawEmail_of rj) then INVALID_FORMAT
          else if bool_decide (normalizedEmail_of rj ∈ seen_before v rows j)
               then DUPLICATE
               else validateEmail (normalizedEmail_of rj)).
Proof.
  intros Hj. rewrite (assigned_statuses_lookup v rows ∅ j rj Hj).
  rewrite assign_status_cases. fold (seen_before v rows j).
  destruct (is_empty (rawEmail_of rj)); [reflexivity|].
  now destruct (bool_decide (normalizedEmail_of rj ∈ seen_before v rows j)).
Qed.

Lemma seen_before_S rows j rj :
  rows !! j = Some rj ->
  seen_before v rows (S j)
  = snd (assign_status v (seen_before v rows j)
                       (rawEmail_of rj) (normalizedEmail_of rj)).
Proof.
  intros Hj. unfold seen_before. rewrite (take_S_r _ _ _ Hj).
  generalize (take j rows) (∅ : gset string). intros l.
  induction l as [|r l IH]; intros seen; simpl; [reflexivity|]. apply IH.
Qed.

End DedupFacts.




(** ** Objects and the emitted record *)

Section ObjectFacts.

Lemma lookup_replace_prop {A} k k' (v : A) (o : list (string * A)) :
  lookup_prop k (replace_prop k' v o)
  = if String.eqb k k'
    then match lookup_prop k' o with Some _ => Some v | None => None end
    else lookup_prop k o.
Proof.
  induction o as [|[k0 v0] o IH]; simpl.
  - now destruct (String.eqb k k').
  - destruct (String.eqb_spec k' k0) as [->|Hne]; simpl.
    + now destruct (String.eqb_spec k k0).
    + rewrite IH. destruct (String.eqb_spec k k') as [->|Hkk'].
      * now rewrite (proj2 (String.eqb_neq _ _) Hne).
      * reflexivity.
Qed.

Lemma lookup_insert_index {A} k n k' (v : A) (o : list (string * A)) :
  lookup_prop k' o = None ->
  lookup_prop k (insert_index n k' v o)
  = if String.eqb k k' then Some v else lookup_prop k o.
Proof.
  induction o as [|[k0 v0] o IH]; simpl; [reflexivity|].
  destruct (String.eqb_spec k' k0) as [->|Hne]; [discriminate|]. intros Hnone.
  destruct (array_index k0) as [m|]; [destruct (m <? n)%N|]; simpl;
    try reflexivity.
  rewrite (IH Hnone).
  destruct (String.eqb_spec k k') as [->|Hkk']; [|reflexivity].
  now rewrite (proj2 (String.eqb_neq _ _) Hne).
Qed.

Lemma lookup_prop_snoc {A} k k' (v : A) (o : list (string * A)) :
  lookup_prop k' o = None ->
  lookup_prop k (app o [(k', v)])
  = if String.eqb k k' then Some v else lookup_prop k o.
Proof.
  induction o as [|[k0 v0] o IH]; simpl; [reflexivity|].
  destruct (String.eqb_spec k' k0) as [->|Hne]; [discriminate|]. intros Hnone.
  rewrite (IH Hnone).
  destruct (String.eqb_spec k k') as [->|Hkk']; [|reflexivity].
  now rewrite (proj2 (String.eqb_neq _ _) Hne).
Qed.

Lemma lookup_set_prop {A} k k' (v : A) (o : list (string * A)) :
  lookup_prop k (set_prop k' v o)
  = if String.eqb k k' then Some v else lookup_prop k o.
Proof.
  unfold set_prop. destruct (lookup_prop k' o) as [v0|] eqn:E.
  - now rewrite lookup_replace_prop, E.
  - destruct (array_index k').
    + now apply lookup_insert_index.
    + now apply lookup_prop_snoc.
Qed.

(** Spreading an object that has no property [k] leaves [k] alone. *)
Lemma lookup_assign_absent k src : forall o,
  lookup_prop k src = None ->
  lookup_prop k (assign o src) = lookup_prop k o.
Proof.
  unfold assign. induction src as [|[k0 v0] src IH]; intros o; simpl;
    [reflexivity|].
  destruct (String.eqb_spec k k0) as [->|Hne]; [discriminate|]. intros Hnone.
  rewrite (IH _ Hnone), lookup_set_prop.
  now rewrite (proj2 (String.eqb_neq _ _) Hne).
Qed.

(** Where the row has no column of that very name, the record shows the
    value the loop computed. *)
Lemma make_record_computed v row raw norm name status :
  (lookup_prop "original" row = None ->
   get_prop "original" (make_record v row raw norm name status) = VStr raw)
  /\ (lookup_prop "email" row = None ->
      get_prop "email" (make_record v row raw norm name status) = VStr norm)
  /\ (lookup_prop "status" row = None ->
      get_prop "status" (make_record v row raw norm name status)
      = VStr (status_string status)).
Proof.
  unfold make_record, get_prop.
  repeat split; intros H; rewrite (lookup_assign_absent _ _ _ H);
    destruct v; reflexivity.
Qed.

Lemma findEmailKey_no_header row :
  no_email_header row -> findEmailKey row = None.
Proof.
  unfold no_email_header, findEmailKey. intros H.
  induction H as [|k ks Hk _ IH]; simpl; [reflexivity|].
  rewrite Hk. exact IH.
Qed.

(** The guard for rows without an email column: [INVALID_FORMAT], and the
    set is handed on as it was. *)
Lemma no_email_header_status v seen row :
  no_email_header row ->
  rawEmail_of row = EmptyString
  /\ assign_status v seen (rawEmail_of row) (normalizedEmail_of row)
     = (INVALID_FORMAT, seen).
Proof.
  intros H. unfold normalizedEmail_of, rawEmail_of.
  rewrite (findEmailKey_no_header _ H). now destruct v.
Qed.

Lemma breakdown_MISSING_MX_zero v files :
  invalidBreakdown (stats (processFiles v files)) !! MISSING_MX = Some 0.
Proof.
  rewrite processFiles_stats.
  apply fold_update_stats_invariant.
  - apply assigned_statuses_not_MISSING_MX.
  - apply initial_stats_invariant.
Qed.

Lemma emitted_records_lookup v rows : forall seen j rj,
  rows !! j = Some rj ->
  emitted_records v seen rows !! j
  = Some (make_record v rj (rawEmail_of rj) (normalizedEmail_of rj)
            (extractName rj)
            (fst (assign_status v (seen_after v seen (take j rows))
                                (rawEmail_of rj) (normalizedEmail_of rj)))).
Proof.
  induction rows as [|row rows IH]; intros seen j rj Hj; [discriminate|].
  simpl.
  destruct (assign_status v seen (rawEmail_of row) (normalizedEmail_of row))
    as [status seen'] eqn:E.
  destruct j as [|j]; simpl in *.
  - injection Hj as <-. now rewrite E.
  - rewrite E. simpl. now apply IH.
Qed.

Lemma processedRecords_run_loop v rows :
  processedRecords (run_loop v rows) = emitted_records v ∅ rows.
Proof. unfold run_loop. now rewrite run_loop_unfold. Qed.

(** The part of the record invariant that does hold: a row with no column
    headed [email] or [original] yields a record whose [email] is the
    lowercase-trimmed form of its [original]. *)
Lemma record_email_normalized v files j rj :
  ingest files !! j = Some rj ->
  lookup_prop "email" rj = None -> lookup_prop "original" rj = None ->
  exists rec original,
    processedRecords (run_loop v (ingest files)) !! j = Some rec
    /\ get_prop "original" rec = VStr original
    /\ get_prop "email" rec = VStr (normalize original).
Proof.
  intros Hj He Ho. rewrite processedRecords_run_loop.
  rewrite (emitted_records_lookup v _ _ _ _ Hj).
  eexists. exists (rawEmail_of rj). split; [reflexivity|].
  split; now apply make_record_computed.
Qed.

(** The part of the missing-email rule that does hold: a row without an
    email-like header is assigned [INVALID_FORMAT] and leaves the set as it
    was, so a second such row is not a duplicate; and where the row has no
    column headed [original] or [status] the record shows both values. *)
Lemma missing_email_rows v files j rj :
  ingest files !! j = Some rj ->
  no_email_header rj ->
  assigned_statuses v ∅ (ingest files) !! j = Some INVALID_FORMAT
  /\ seen_before v (ingest files) (S j) = seen_before v (ingest files) j
  /\ (lookup_prop "original" rj = None -> lookup_prop "status" rj = None ->
      exists rec,
        processedRecords (run_loop v (ingest files)) !! j = Some rec
        /\ get_prop "original" rec = VStr ""
        /\ get_prop "status" rec = VStr (status_string INVALID_FORMAT)).
Proof.
  intros Hj Hno.
  destruct (no_email_header_status v (seen_before v (ingest files) j) rj Hno)
    as [Hraw Hst].
  split; [|split].
  - rewrite (assigned_statuses_lookup v _ _ _ _ Hj).
    fold (seen_before v (ingest files) j). now rewrite Hst.
  - now rewrite (seen_before_S v _ _ _ Hj), Hst.
  - intros Ho Hs. rewrite processedRecords_run_loop.
    rewrite (emitted_records_lookup v _ _ _ _ Hj).
    fold (seen_before v (ingest files) j). rewrite Hst. simpl fst.
    eexists. split; [reflexivity|].
    rewrite <- Hraw at 2.
    split; now apply make_record_computed.
Qed.

(** The statuses of [assigned_statuses] are the ones the records show,
    wherever the row has no column headed [status] of its own; they are
    then members of the enumeration other than [MISSING_MX]. *)
Lemma record_status_assigned v files j rj :
  ingest files !! j = Some rj ->
  lookup_prop "status" rj = None ->
  exists rec status,
    processedRecords (run_loop v (ingest files)) !! j = Some rec
    /\ assigned_statuses v ∅ (ingest files) !! j = Some status
    /\ get_prop "status" rec = VStr (status_string status)
    /\ status <> MISSING_MX.
Proof.
  intros Hj Hs. rewrite processedRecords_run_loop.
  rewrite (emitted_records_lookup v _ _ _ _ Hj).
  rewrite (assigned_statuses_lookup v _ _ _ _ Hj).
  eexists. eexists. split; [reflexivity|]. split; [reflexivity|].
  split; [now apply make_record_computed|].
  apply assign_status_not_MISSING_MX.
Qed.

End ObjectFacts.

(** ** White space in the email cell *)

Section BlankFacts.

Context (v : Variant).

Lemma uniqueEmails_prefix rows n :
  uniqueEmails (run_loop v (take n rows)) = seen_before v rows n.
Proof. unfold run_loop, seen_before. now rewrite run_loop_unfold. Qed.

(** What the loop does with row [j], read off the decision it takes at the
    set it holds there. *)
Lemma row_outcome rows j rj status seen' :
  rows !! j = Some rj ->
  assign_status v (seen_before v rows j) (rawEmail_of rj) (normalizedEmail_of rj)
  = (status, seen') ->
  assigned_statuses v ∅ rows !! j = Some status
  /\ uniqueEmails (run_loop v (take (S j) rows)) = seen'
  /\ (lookup_prop "status" rj = None ->
      exists rec,
        processedRecords (run_loop v rows) !! j = Some rec
        /\ get_prop "status" rec = VStr (status_string status)).
Proof.
  intros Hj Hstep. split; [|split].
  - rewrite (assigned_statuses_lookup v _ _ _ _ Hj).
    fold (seen_before v rows j). now rewrite Hstep.
  - rewrite uniqueEmails_prefix, (seen_before_S v _ _ _ Hj). now rewrite Hstep.
  - intros Hs. rewrite processedRecords_run_loop.
    rewrite (emitted_records_lookup v _ _ _ _ Hj).
    fold (seen_before v rows j). rewrite Hstep.
    eexists. split; [reflexivity|]. now apply make_record_computed.
Qed.

Lemma blank_in_final_set rows i ri :
  rows !! i = Some ri -> blank_cell ri ->
  "" ∈ uniqueEmails (run_loop v rows).
Proof.
  intros Hi [Hraw Hnorm]. unfold run_loop. rewrite run_loop_unfold. simpl.
  apply elem_of_seen_after. right. exists ri.
  split; [now apply list_elem_of_lookup_2 with i | now split].
Qed.

End BlankFacts.

(** C10. A cell that is not empty but holds only white space is not caught
    by the empty check, which looks at the raw value: for the first such
    row the loop finds the empty string absent from its set, gives the row
    the classifier's verdict for the empty string, [INVALID_FORMAT], and
    adds the empty string to the set; for every later such row it finds the
    empty string in the set and classifies the row [DUPLICATE].  The
    statuses show in the emitted records and in the statistics. *)
Theorem whitespace_cells_deduplicated :
  (forall (v : Variant) (files : list File) (i : nat) (ri : obj),
      ingest files !! i = Some ri ->
      blank_cell ri ->
      (forall k rk, k < i -> ingest files !! k = Some rk -> ~ blank_cell rk) ->
      is_empty (rawEmail_of ri) = false
      /\ assigned_statuses v ∅ (ingest files) !! i = Some (validateEmail "")
      /\ validateEmail "" = INVALID_FORMAT
      /\ "" ∈ seen_before v (ingest files) (S i)
      /\ ("" ∉ uniqueEmails (run_loop v (take i (ingest files))))
      /\ "" ∈ uniqueEmails (run_loop v (take (S i) (ingest files)))
      /\ "" ∈ uniqueEmails (run_loop v (ingest files))
      /\ (lookup_prop "status" ri = None ->
          exists rec,
            processedRecords (run_loop v (ingest files)) !! i = Some rec
            /\ get_prop "status" rec = VStr (status_string INVALID_FORMAT)))
  /\ (forall (v : Variant) (files : list File) (i j : nat) (ri rj : obj),
        i < j ->
        ingest files !! i = Some ri -> blank_cell ri ->
        ingest files !! j = Some rj -> blank_cell rj ->
        assigned_statuses v ∅ (ingest files) !! j = Some DUPLICATE
        /\ "" ∈ uniqueEmails (run_loop v (take j (ingest files)))
        /\ uniqueEmails (run_loop v (take (S j) (ingest files)))
           = uniqueEmails (run_loop v (take j (ingest files)))
        /\ (lookup_prop "status" rj = None ->
            exists rec,
              processedRecords (run_loop v (ingest files)) !! j = Some rec
              /\ get_prop "status" rec = VStr (status_string DUPLICATE)))
  /\ (forall v : Variant,
        let files :=
          one_file [[("email", VStr " "); ("city", VStr "Oslo")];
                    [("email", VStr "   "); ("city", VStr "Bergen")];
                    [("email", VStr " "); ("city", VStr "Oslo")]] in
        assigned_statuses v ∅ (ingest files)
        = [INVALID_FORMAT; DUPLICATE; DUPLICATE]
        /\ map (get_prop "status") (processedRecords (run_loop v (ingest files)))
           = map (fun st => VStr (status_string st))
                 [INVALID_FORMAT; DUPLICATE; DUPLICATE]
        /\ uniqueEmails (run_loop v (ingest files)) = {[""]}
        /\ totalProcessed (stats (processFiles v files)) = 3
        /\ totalDuplicates (stats (processFiles v files)) = 2
        /\ invalidBreakdown (stats (processFiles v files)) !! INVALID_FORMAT
           = Some 1
        /\ map (get_prop "status") (invalidRecords (processFiles v files))
           = map (fun st => VStr (status_string st))
                 [INVALID_FORMAT; DUPLICATE; DUPLICATE]).
Proof.
  split; [|split].
  - intros v files i ri Hi [Hraw Hnorm] Hfirst.
    assert (Hout : "" ∉ seen_before v (ingest files) i).
    { intros Hin. apply elem_of_seen_before in Hin as (k & rk & Hk & Hrk & Hne & Hx).
      now apply (Hfirst k rk Hk Hrk). }
    assert (Hempty : is_empty (rawEmail_of ri) = false) by now apply is_empty_false.
    assert (Hstep : assign_status v (seen_before v (ingest files) i)
                      (rawEmail_of ri) (normalizedEmail_of ri)
                    = (validateEmail "", {[""]} ∪ seen_before v (ingest files) i)).
    { rewrite assign_status_cases, Hempty, Hnorm.
      now rewrite (bool_decide_eq_false_2 _ Hout). }
    destruct (row_outcome v _ _ _ _ _ Hi Hstep) as (Hst & Hset & Hrec).
    assert (Hin : "" ∈ {[""]} ∪ seen_before v (ingest files) i).
    { apply elem_of_union. left. now apply elem_of_singleton. }
    split; [exact Hempty|]. split; [exact Hst|]. split; [reflexivity|].
    split; [now rewrite <- uniqueEmails_prefix, Hset|].
    split; [now rewrite uniqueEmails_prefix|].
    split; [now rewrite Hset|].
    split; [now apply (blank_in_final_set v _ i ri)|].
    exact Hrec.
  - intros v files i j ri rj Hlt Hi [Hrawi Hnormi] Hj [Hrawj Hnormj].
    assert (Hin : "" ∈ seen_before v (ingest files) j).
    { apply elem_of_seen_before. exists i, ri. now repeat split. }
    assert (Hstep : assign_status v (seen_before v (ingest files) j)
                      (rawEmail_of rj) (normalizedEmail_of rj)
                    = (DUPLICATE, seen_before v (ingest files) j)).
    { rewrite assign_status_cases, (proj2 (is_empty_false _) Hrawj), Hnormj.
      now rewrite (bool_decide_eq_true_2 _ Hin). }
    destruct (row_outcome v _ _ _ _ _ Hj Hstep) as (Hst & Hset & Hrec).
    split; [exact Hst|].
    split; [now rewrite uniqueEmails_prefix|].
    split; [now rewrite Hset, uniqueEmails_prefix|].
    exact Hrec.
  - intros []; vm_compute; repeat split.
Qed.

Lemma whitespace_cells_deduplicated_witness :
  let files := one_file [[("email", VStr " "); ("city", VStr "Oslo")];
                         [("email", VStr "   "); ("city", VStr "Bergen")]] in
  assigned_statuses Basic ∅ (ingest files) !! 0 = Some (validateEmail "")
  /\ "" ∈ uniqueEmails (run_loop Basic (take 1 (ingest files)))
  /\ assigned_statuses Basic ∅ (ingest files) !! 1 = Some DUPLICATE
  /\ exists rec,
       processedRecords (run_loop Basic (ingest files)) !! 1 = Some rec
       /\ get_prop "status" rec = VStr (status_string DUPLICATE).
Proof.
  set (files := one_file [[("email", VStr " "); ("city", VStr "Oslo")];
                          [("email", VStr "   "); ("city", VStr "Bergen")]]).
  set (r0 := [("email", VStr " "); ("city", VStr "Oslo");
              ("_sourceFile", VStr "in.csv")]).
  set (r1 := [("email", VStr "   "); ("city", VStr "Bergen");
              ("_sourceFile", VStr "in.csv")]).
  assert (H0 : ingest files !! 0 = Some r0) by reflexivity.
  assert (H1 : ingest files !! 1 = Some r1) by reflexivity.
  assert (B0 : blank_cell r0) by (split; [vm_compute; discriminate | reflexivity]).
  assert (B1 : blank_cell r1) by (split; [vm_compute; discriminate | reflexivity]).
  destruct (proj1 whitespace_cells_deduplicated Basic files 0 r0 H0 B0)
    as (_ & Hst0 & _ & _ & _ & Hset & _).
  { intros k rk Hk. lia. }
  destruct (proj1 (proj2 whitespace_cells_deduplicated) Basic files 0 1 r0 r1)
    as (Hst1 & _ & _ & Hrec); [lia | exact H0 | exact B0 | exact H1 | exact B1 |].
  split; [exact Hst0|]. split; [exact Hset|]. split; [exact Hst1|].
  now apply Hrec.
Defined.

(** C3, at a failing input. A file whose column is headed [email] and
    whose cell is "  Foo@Bar.COM ": the row is spread over the computed
    fields, so the emitted record's [email] is the raw cell and not the
    lowercase-trimmed form of its [original]. *)
Theorem record_email_shadowed (v : Variant) :
  let files := one_file [[("email", VStr "  Foo@Bar.COM ")]] in
  exists rec,
    validRecords (processFiles v files) = [rec]
    /\ get_prop "original" rec = VStr "  Foo@Bar.COM "
    /\ get_prop "email" rec = VStr "  Foo@Bar.COM "
    /\ normalize "  Foo@Bar.COM " = "foo@bar.com"
    /\ get_prop "email" rec <> VStr (normalize "  Foo@Bar.COM ").
Proof.
  destruct v; vm_compute; eexists; repeat split; discriminate.
Qed.

(** C5, at a failing input. A file with a column headed [status]: the
    emitted records carry the cells of that column, one of them outside
    the enumeration and one of them [MISSING_MX]; both records land among
    the invalid ones although the loop counted two valid rows. *)
Theorem record_status_shadowed (v : Variant) :
  let files :=
    one_file [[("email", VStr "ann@acme.io"); ("status", VStr "subscribed")];
              [("email", VStr "bob@acme.io"); ("status", VStr "MISSING_MX")]] in
  let result := processFiles v files in
  assigned_statuses v ∅ (ingest files) = [VALID; VALID]
  /\ validRecords result = []
  /\ map (get_prop "status") (invalidRecords result)
     = [VStr "subscribed"; VStr (status_string MISSING_MX)]
  /\ (forall st, status_string st <> "subscribed")
  /\ totalValid (stats result) = 2
  /\ invalidBreakdown (stats result) !! MISSING_MX = Some 0.
Proof.
  destruct v; vm_compute; repeat split; try (intros []; discriminate).
Qed.

(** C6, at a failing input. A row without any email-like header but with a
    column headed [status]: the loop assigns [INVALID_FORMAT] and leaves
    the set alone, yet the emitted record carries the cell of that column. *)
Theorem missing_email_status_shadowed (v : Variant) :
  let row := [("name", VStr "Bob"); ("status", VStr "VALID")] in
  let result := processFiles v (one_file [row; row]) in
  no_email_header row
  /\ assigned_statuses v ∅ (ingest (one_file [row; row]))
     = [INVALID_FORMAT; INVALID_FORMAT]
  /\ map (get_prop "original") (validRecords result) = [VStr ""; VStr ""]
  /\ map (get_prop "status") (validRecords result) = [VStr "VALID"; VStr "VALID"]
  /\ invalidRecords result = []
  /\ totalValid (stats result) = 0.
Proof.
  split; [repeat constructor|].
  destruct v; vm_compute; repeat split.
Qed.

(** ** The name resolver *)

Section ResolverFacts.

Lemma find_pointwise {A} (p q : A -> bool) (l : list A) :
  (forall x, p x = q x) -> find p l = find q l.
Proof.
  intros H. induction l as [|x l IH]; simpl; [reflexivity|].
  now rewrite H, IH.
Qed.

Lemma existsb_map_find {A B} (p : B -> bool) (f : A -> B) (l : list A) :
  existsb p (map f l)
  = match find (fun x => p (f x)) l with Some _ => true | None => false end.
Proof.
  induction l as [|x l IH]; simpl; [reflexivity|].
  destruct (p (f x)); [reflexivity | exact IH].
Qed.

Lemma findIndex_map_find {A B} (p : B -> bool) (f : A -> B) (l : list A) :
  match find (fun x => p (f x)) l with
  | Some x => exists i, findIndex p (map f l) = Some i /\ l !! i = Some x
  | None => findIndex p (map f l) = None
  end.
Proof.
  induction l as [|x l IH]; simpl; [reflexivity|].
  destruct (p (f x)); [now exists 0|].
  destruct (find (fun x => p (f x)) l) as [y|].
  - destruct IH as (i & -> & Hi). now exists (S i).
  - now rewrite IH.
Qed.

Lemma cell_at_findIndex row (p : string -> bool) :
  cell_at row (keys row) (findIndex p (map toLowerCase (keys row)))
  = match first_header p row with
    | Some k => get_prop k row
    | None => get_prop "undefined" row
    end.
Proof.
  unfold first_header.
  pose proof (findIndex_map_find p toLowerCase (keys row)) as H.
  destruct (find (fun k => p (toLowerCase k)) (keys row)) as [k|].
  - destruct H as (i & -> & Hi). simpl. now rewrite Hi.
  - now rewrite H.
Qed.

Lemma findIndex_first_header row (p : string -> bool) :
  findIndex p (map toLowerCase (keys row)) = None
  <-> first_header p row = None.
Proof.
  unfold first_header.
  pose proof (findIndex_map_find p toLowerCase (keys row)) as H.
  destruct (find (fun k => p (toLowerCase k)) (keys row)) as [k|].
  - destruct H as (i & -> & _). split; discriminate.
  - now rewrite H.
Qed.

Lemma first_header_exact x row :
  first_header (fun l => array_includes l [x]) row
  = first_header (String.eqb x) row.
Proof.
  apply find_pointwise. intros k. unfold array_includes. simpl.
  now rewrite orb_false_r, String.eqb_sym.
Qed.

Lemma exact_step x row (rest : string) :
  (if array_includes x (map toLowerCase (keys row))
   then or_empty (cell_at row (keys row) (indexOf x (map toLowerCase (keys row))))
   else rest)
  = match by_exact_header [x] row with Some name => name | None => rest end.
Proof.
  unfold by_exact_header. rewrite first_header_exact.
  unfold array_includes, indexOf.
  rewrite existsb_map_find, cell_at_findIndex.
  fold (first_header (String.eqb x) row).
  now destruct (first_header (String.eqb x) row).
Qed.

Lemma is_fuzzy_name_nonempty k : is_fuzzy_name k = true -> is_empty k = false.
Proof. now destruct k. Qed.

End ResolverFacts.

(** C7, as amended. The resolver tries, first success winning: the header
    "name", then the header "full name", then the header "fullname"; then
    first-name and last-name headers joined by a space and trimmed; then
    the first-name header alone; then the fuzzy fallback; and returns the
    empty string when nothing matches.  Among several headers that qualify
    for one of these steps the first in column order is taken. *)
Theorem extractName_strategies (row : obj) :
  extractName row = resolve_name row.
Proof.
  unfold extractName, resolve_name. cbn [first_success].
  rewrite !exact_step.
  destruct (by_exact_header ["name"] row); [reflexivity|].
  destruct (by_exact_header ["full name"] row); [reflexivity|].
  destruct (by_exact_header ["fullname"] row); [reflexivity|].
  unfold by_first_and_last, by_first, by_fuzzy.
  rewrite !cell_at_findIndex.
  pose proof (findIndex_first_header row is_first_name) as Hf.
  pose proof (findIndex_first_header row is_last_name) as Hl.
  destruct (findIndex is_first_name (map toLowerCase (keys row))) as [i|];
    destruct (first_header is_first_name row) as [f|];
    try (destruct Hf as [Hf1 Hf2]; (discriminate (Hf1 eq_refl) || discriminate (Hf2 eq_refl))).
  - destruct (findIndex is_last_name (map toLowerCase (keys row))) as [j|];
      destruct (first_header is_last_name row) as [l|];
      try (destruct Hl as [Hl1 Hl2]; (discriminate (Hl1 eq_refl) || discriminate (Hl2 eq_refl)));
      reflexivity.
  - destruct (find is_fuzzy_name (keys row)) as [k|] eqn:Ek; [|reflexivity].
    apply find_some in Ek as [_ Ek].
    now rewrite (is_fuzzy_name_nonempty _ Ek).
Qed.

(** C7 as stated fails: with the columns "fullname" and "name", in this
    order, both headers qualify for strategy (a) and "fullname" comes
    first, but the resolver returns the cell under "name". *)
Lemma extractName_exact_header_order :
  let row := [("fullname", VStr "Ann Lee"); ("name", VStr "Bob")] in
  resolve_name_as_stated row = "Ann Lee"
  /\ extractName row = "Bob"
  /\ extractName row <> resolve_name_as_stated row.
Proof. vm_compute. repeat split. discriminate. Qed.

(** ** The export projection *)

Section ExportFacts.

Lemma lookup_prop_None {A} k (o : list (string * A)) :
  lookup_prop k o = None <-> k ∉ keys o.
Proof.
  induction o as [|[k0 v0] o IH]; simpl.
  - split; [intros _; apply not_elem_of_nil | reflexivity].
  - rewrite not_elem_of_cons, <- IH.
    destruct (String.eqb_spec k k0) as [->|Hne].
    + split; [discriminate | intros [H _]; now contradiction H].
    + split; [now split | now intros [_ H]].
Qed.

Lemma header_of_not_index col :
  array_index col = None -> array_index (header_of col) = None.
Proof.
  unfold header_of.
  destruct (String.eqb col "status"); [reflexivity|].
  destruct (String.eqb col "name"); [reflexivity|].
  destruct (String.eqb col "email"); [reflexivity|].
  easy.
Qed.

Lemma header_of_not_proto col :
  array_includes col object_prototype_members = false ->
  String.eqb (header_of col) "__proto__" = false.
Proof.
  intros H. unfold header_of.
  destruct (String.eqb col "status"); [reflexivity|].
  destruct (String.eqb col "name"); [reflexivity|].
  destruct (String.eqb col "email"); [reflexivity|].
  destruct (String.eqb_spec col "__proto__") as [->|]; [discriminate H | reflexivity].
Qed.

Lemma set_prop_fresh {A} k (v : A) (o : list (string * A)) :
  k ∉ keys o -> array_index k = None -> set_prop k v o = app o [(k, v)].
Proof.
  intros Hk Hi. unfold set_prop.
  now rewrite (proj2 (lookup_prop_None k o) Hk), Hi.
Qed.

(** A field that names no member of the prototype reads as the own value,
    the empty string standing in for an absent or falsy one. *)
Lemma read_or_empty_plain col record :
  array_includes col object_prototype_members = false ->
  read_or_empty col record = Own (VStr (or_empty (get_prop col record))).
Proof.
  intros H. unfold read_or_empty, get_prop.
  destruct (lookup_prop col record); [reflexivity | now rewrite H].
Qed.

Lemma read_or_empty_own col record s :
  get_prop col record = VStr s -> read_or_empty col record = Own (VStr s).
Proof.
  unfold read_or_empty, get_prop.
  destruct (lookup_prop col record) as [w|]; [|discriminate].
  now intros ->.
Qed.

Lemma project_fold record columns : forall filtered : export_row,
  NoDup (app (keys filtered) (map header_of columns)) ->
  Forall (fun col => array_index col = None) columns ->
  Forall (fun col => array_includes col object_prototype_members = false)
         columns ->
  fold_left
    (fun filtered col =>
       assign_cell (header_of col) (read_or_empty col record) filtered)
    columns filtered
  = app filtered (project_as_stated columns record).
Proof.
  induction columns as [|col columns IH]; intros filtered Hnd Hidx Hproto; simpl.
  - now rewrite app_nil_r.
  - apply Forall_cons in Hidx as [Hcol Hidx].
    apply Forall_cons in Hproto as [Hmember Hproto].
    simpl in Hnd. apply NoDup_app in Hnd as (Hf & Hdisj & Hcols).
    apply NoDup_cons in Hcols as [Hfresh Hcols].
    unfold assign_cell at 2.
    rewrite (header_of_not_proto _ Hmember), (read_or_empty_plain _ _ Hmember).
    rewrite set_prop_fresh.
    + rewrite IH; [now rewrite <- app_assoc | | exact Hidx | exact Hproto].
      unfold keys. rewrite map_app. simpl. rewrite <- app_assoc. simpl.
      apply NoDup_app. repeat split; [exact Hf| |now apply NoDup_cons].
      exact Hdisj.
    + intros Hin. apply (Hdisj _ Hin). apply list_elem_of_here.
    + now apply header_of_not_index.
Qed.

Lemma project_record_as_stated record columns :
  NoDup (map header_of columns) ->
  Forall (fun col => array_index col = None) columns ->
  Forall (fun col => array_includes col object_prototype_members = false)
         columns ->
  project_record columns record = project_as_stated columns record.
Proof.
  intros Hnd Hidx Hproto. unfold project_record.
  now rewrite project_fold.
Qed.

Lemma project_email record :
  project_record ["email"] record = [("Email", read_or_empty "email" record)].
Proof. reflexivity. Qed.

Lemma project_email_status record :
  project_record ["email"; "status"] record
  = [("Email", read_or_empty "email" record);
     ("Status", read_or_empty "status" record)].
Proof. reflexivity. Qed.

End ExportFacts.

(** C9, as amended. For every record list and every non-empty field list
    whose headers after the remap are pairwise distinct and none of whose
    fields is an array index or the name of a member of [Object.prototype],
    the projection emits one row per record holding exactly the listed
    fields in the order of the list, under the headers email -> Email,
    name -> Name, status -> Status (any other field under its own name),
    with the empty string for a field the record lacks.  With the list
    ["email"] a row is the single column Email, and for a record whose row
    has no column headed [email] it holds the normalized address. *)
Theorem export_projection :
  (forall (data : list obj) (columns : list string),
      columns <> [] ->
      NoDup (map header_of columns) ->
      Forall (fun col => array_index col = None) columns ->
      Forall (fun col => array_includes col object_prototype_members = false)
             columns ->
      exportData data columns = map (project_as_stated columns) data
      /\ length (exportData data columns) = length data)
  /\ header_of "email" = "Email" /\ header_of "name" = "Name"
  /\ header_of "status" = "Status"
  /\ (forall col, col <> "email" -> col <> "name" -> col <> "status" ->
                  header_of col = col)
  /\ (forall record col,
        lookup_prop col record = None ->
        array_includes col object_prototype_members = false ->
        read_or_empty col record = Own (VStr ""))
  /\ (forall record,
        exportData [record] ["email"]
        = [[("Email", Own (VStr (or_empty (get_prop "email" record))))]])
  /\ (forall (v : Variant) (files : list File) (j : nat) (row rec : obj),
        ingest files !! j = Some row ->
        lookup_prop "email" row = None ->
        processedRecords (run_loop v (ingest files)) !! j = Some rec ->
        exportData [rec] ["email"]
        = [[("Email", Own (VStr (normalizedEmail_of row)))]])
  /\ (forall v,
        let files := one_file [[("Email", VStr " Foo@Bar.com "); ("City", VStr "Oslo")]] in
        exportData (validRecords (processFiles v files)) ["email"]
        = [[("Email", Own (VStr "foo@bar.com"))]]).
Proof.
  split; [|repeat split].
  - intros data columns Hne Hnd Hidx Hproto. unfold exportData.
    destruct columns as [|col columns]; [congruence|].
    change (0 <? length (col :: columns))%nat with true. cbv iota.
    split; [|apply length_map].
    apply map_ext. intros record. now apply project_record_as_stated.
  - intros col H1 H2 H3. unfold header_of.
    now rewrite (proj2 (String.eqb_neq _ _) H1), (proj2 (String.eqb_neq _ _) H2),
      (proj2 (String.eqb_neq _ _) H3).
  - intros record col H Hm. unfold read_or_empty. now rewrite H, Hm.
  - intros record. unfold exportData. simpl map. rewrite project_email.
    now rewrite (read_or_empty_plain "email" record eq_refl).
  - intros v files j row rec Hj He Hrec.
    rewrite processedRecords_run_loop in Hrec.
    rewrite (emitted_records_lookup v _ _ _ _ Hj) in Hrec. injection Hrec as <-.
    unfold exportData. simpl map. rewrite project_email.
    erewrite read_or_empty_own; [reflexivity|].
    now apply make_record_computed.
  - intros []; vm_compute; reflexivity.
Qed.

Lemma export_projection_witness :
  exportData [[("email", VStr "a@x.com"); ("status", VStr "DUPLICATE");
               ("City", VStr "Oslo")]]
             ["email"; "status"; "name"]
  = [[("Email", Own (VStr "a@x.com")); ("Status", Own (VStr "DUPLICATE"));
      ("Name", Own (VStr ""))]]
  /\ exportData
       [make_record Extended
          [("Email", VStr " Foo@Bar.com "); ("_sourceFile", VStr "in.csv")]
          " Foo@Bar.com " "foo@bar.com" "" VALID]
       ["email"]
     = [[("Email", Own (VStr "foo@bar.com"))]].
Proof.
  split.
  - refine (proj1 (proj1 export_projection
              [[("email", VStr "a@x.com"); ("status", VStr "DUPLICATE");
                ("City", VStr "Oslo")]]
              ["email"; "status"; "name"] _ _ _ _)).
    + discriminate.
    + apply (bool_decide_unpack _). vm_compute. exact I.
    + repeat constructor.
    + repeat constructor.
  - refine (proj1 (proj2 (proj2 (proj2 (proj2 (proj2 (proj2 (proj2
              export_projection)))))))
              Extended
              (one_file [[("Email", VStr " Foo@Bar.com ")]]) 0
              [("Email", VStr " Foo@Bar.com "); ("_sourceFile", VStr "in.csv")]
              _ eq_refl eq_refl eq_refl).
Defined.

(** C9 as stated fails.  With the field list ["email"; "Email"] both
    fields go under the header Email and the row keeps one column, which
    holds the second field; with ["email"; "7"] the column 7, an array
    index, comes before Email; with ["__proto__"; "email"] the assignment
    to [__proto__] creates no column; with ["constructor"] the record lacks
    the field but the cell is the inherited member, not the empty string;
    and for a record whose row has a column headed [email] the column Email
    holds the raw cell, not the normalized address. *)
Lemma export_projection_collisions :
  let record := [("email", VStr "a@x.com")] in
  exportData [record] ["email"; "Email"] = [[("Email", Own (VStr ""))]]
  /\ exportData [record] ["email"; "Email"]
     <> map (project_as_stated ["email"; "Email"]) [record]
  /\ exportData [record] ["email"; "7"]
     = [[("7", Own (VStr "")); ("Email", Own (VStr "a@x.com"))]]
  /\ exportData [record] ["email"; "7"]
     <> map (project_as_stated ["email"; "7"]) [record]
  /\ exportData [record] ["__proto__"; "email"]
     = [[("Email", Own (VStr "a@x.com"))]]
  /\ exportData [record] ["__proto__"; "email"]
     <> map (project_as_stated ["__proto__"; "email"]) [record]
  /\ exportData [record] ["constructor"]
     = [[("constructor", Inherited "constructor")]]
  /\ exportData [record] ["constructor"]
     <> map (project_as_stated ["constructor"]) [record]
  /\ exportData
       (validRecords
          (processFiles Extended (one_file [[("email", VStr "  Foo@Bar.COM ")]])))
       ["email"]
     = [[("Email", Own (VStr "  Foo@Bar.COM "))]]
  /\ normalize "  Foo@Bar.COM " = "foo@bar.com".
Proof. vm_compute. repeat split; discriminate. Qed.

(** * Further properties *)

(** ** The syntax pattern, completely *)

Section RegexComplete.

Lemma Matches_nullable r s : Matches r s -> s = EmptyString -> nullable r = true.
Proof.
  induction 1 as [|cs c Hc|r1 r2 s1 s2 H1 IH1 H2 IH2|r1 r2 s H IH|r1 r2 s H IH
                  |r|r s1 s2 H1 IH1 H2 IH2]; intros Hs; simpl; try reflexivity.
  - discriminate.
  - destruct s1; [|discriminate]. simpl in Hs.
    now rewrite IH1, IH2.
  - now rewrite IH.
  - rewrite IH by assumption. apply orb_true_r.
Qed.

Lemma deriv_complete c r t :
  Matches r t -> forall s, t = String c s -> Matches (deriv c r) s.
Proof.
  induction 1 as [|cs c0 Hc|r1 r2 s1 s2 H1 IH1 H2 IH2|r1 r2 s0 H IH|r1 r2 s0 H IH
                  |r|r s1 s2 H1 IH1 H2 IH2]; intros s Hs; simpl.
  - discriminate.
  - injection Hs as -> <-. rewrite Hc. constructor.
  - destruct s1 as [|c1 s1'].
    + simpl in Hs. rewrite (Matches_nullable _ _ H1 eq_refl).
      apply MAltR. now apply IH2.
    + injection Hs as -> <-.
      assert (Hcat : Matches (Cat (deriv c r1) r2) (s1' ++ s2))
        by (constructor; [now apply IH1 | exact H2]).
      destruct (nullable r1); [now apply MAltL | exact Hcat].
  - apply MAltL. now apply IH.
  - apply MAltR. now apply IH.
  - discriminate.
  - destruct s1 as [|c1 s1'].
    + simpl in Hs. now apply IH2.
    + injection Hs as -> <-. constructor; [now apply IH1 | exact H2].
Qed.

Lemma test_complete s : forall r, Matches r s -> test r s = true.
Proof.
  induction s as [|c s IH]; simpl; intros r H.
  - now apply (Matches_nullable r EmptyString).
  - apply IH. now apply (deriv_complete c r (String c s)).
Qed.

Lemma test_Matches r s : test r s = true <-> Matches r s.
Proof. split; [apply test_sound | apply test_complete]. Qed.

Lemma Matches_star_class_intro cs s :
  all_chars (in_class cs) s = true -> Matches (Star (Class cs)) s.
Proof.
  induction s as [|c s IH]; simpl; intros H; [constructor|].
  apply andb_true_iff in H as [Hc Hs].
  change (String c s) with (String c EmptyString ++ s).
  constructor; [now constructor | now apply IH].
Qed.

Lemma Matches_plus_class_intro cs s :
  s <> EmptyString -> all_chars (in_class cs) s = true ->
  Matches (Plus (Class cs)) s.
Proof.
  destruct s as [|c s]; [congruence|]. simpl. intros _ H.
  apply andb_true_iff in H as [Hc Hs].
  change (String c s) with (String c EmptyString ++ s).
  constructor; [now constructor | now apply Matches_star_class_intro].
Qed.

Lemma Matches_atleast2_class cs s :
  Matches (AtLeast2 (Class cs)) s
  <-> 2 <= String.length s /\ all_chars (in_class cs) s = true.
Proof.
  split.
  - intros H. inversion H as [| |? ? s1 s' H1 H'| | | |]; subst; clear H.
    inversion H' as [| |? ? s2 s3 H2 H3| | | |]; subst; clear H'.
    inversion H1 as [|? c1 Hc1| | | | |]; subst; clear H1.
    inversion H2 as [|? c2 Hc2| | | | |]; subst; clear H2.
    apply Matches_star_class in H3.
    change (String c1 EmptyString ++ (String c2 EmptyString ++ s3))
      with (String c1 (String c2 s3)).
    cbn [String.length all_chars]. rewrite Hc1, Hc2, H3.
    split; [lia | reflexivity].
  - intros [Hlen Hall].
    destruct s as [|c1 [|c2 s]]; simpl in Hlen; try lia.
    cbn [all_chars] in Hall. apply andb_true_iff in Hall as [Hc1 Hall].
    apply andb_true_iff in Hall as [Hc2 Hall].
    change (String c1 (String c2 s))
      with (String c1 EmptyString ++ (String c2 EmptyString ++ s)).
    constructor; [now constructor|].
    constructor; [now constructor | now apply Matches_star_class_intro].
Qed.

Lemma Matches_chr c s : Matches (Chr c) s <-> s = String c EmptyString.
Proof.
  unfold Chr. split.
  - intros H. inversion H as [|? c0 Hc| | | | |]; subst. f_equal.
    unfold in_class in Hc. simpl in Hc. rewrite orb_false_r in Hc.
    apply andb_true_iff in Hc as [H1 H2].
    apply N.leb_le in H1, H2.
    rewrite <- (ascii_N_embedding c), <- (ascii_N_embedding c0).
    f_equal. lia.
  - intros ->. constructor. unfold in_class. simpl.
    now rewrite N.leb_refl.
Qed.

End RegexComplete.

(** X1. The syntax pattern accepts exactly the strings made of a non-empty
    local part over letters, digits and [._%+-], one [@], a non-empty
    domain over letters, digits and [.-], a dot, and at least two letters. *)
Theorem EMAIL_REGEX_exact (e : string) :
  test EMAIL_REGEX e = true <-> well_formed_address e.
Proof.
  rewrite test_Matches. unfold EMAIL_REGEX, well_formed_address. split.
  - intros H.
    inversion H as [| |? ? l rest Hl Hrest| | | |]; subst; clear H.
    inversion Hrest as [| |? ? a rest2 Ha Hrest2| | | |]; subst; clear Hrest.
    inversion Hrest2 as [| |? ? d rest3 Hd Hrest3| | | |]; subst; clear Hrest2.
    inversion Hrest3 as [| |? ? dot t Hdot Ht| | | |]; subst; clear Hrest3.
    apply Matches_chr in Ha as ->. apply Matches_chr in Hdot as ->.
    apply Matches_plus_class in Hl as [Hl Hlne].
    apply Matches_plus_class in Hd as [Hd Hdne].
    apply Matches_atleast2_class in Ht as [Hlen Ht].
    exists l, d, t. repeat split; assumption.
  - intros (l & d & t & -> & Hlne & Hl & Hdne & Hd & Hlen & Ht).
    constructor; [now apply Matches_plus_class_intro|].
    change (String "@" (d ++ String "." t))
      with (String "@" EmptyString ++ (d ++ String "." t)).
    constructor; [now apply Matches_chr|].
    constructor; [now apply Matches_plus_class_intro|].
    change (String "." t) with (String "." EmptyString ++ t).
    constructor; [now apply Matches_chr|].
    apply Matches_atleast2_class. now split.
Qed.

(** ** The classifier, completely *)

Section ClassifierComplete.

Lemma test_includes_at e : test EMAIL_REGEX e = true -> includes "@" e = true.
Proof.
  intros H. destruct (EMAIL_REGEX_shape _ H) as (l & d & -> & _).
  apply includes_at_app.
Qed.

Lemma validateEmail_matched s :
  test EMAIL_REGEX (normalize s) = true ->
  validateEmail s
  = classify_by_priority (local_part (normalize s)) (domain_part (normalize s)).
Proof.
  intros Hre.
  destruct (EMAIL_REGEX_shape _ Hre) as (l & d & He & Hl & Hd & _).
  unfold validateEmail. rewrite validateEmail_guard.
  fold (normalize s). rewrite <- includes_at_normalize, Hre, He.
  rewrite includes_at_app, split_at by assumption. simpl negb. cbv iota.
  rewrite local_part_at, domain_part_at by assumption.
  cbn [lookup list_lookup]. rewrite !has_Some.
  apply chain_bool_decide.
Qed.

Lemma validateEmail_unmatched s :
  test EMAIL_REGEX (normalize s) = false -> validateEmail s = INVALID_FORMAT.
Proof.
  intros Hre. unfold validateEmail. fold (normalize s). rewrite Hre.
  now destruct (is_empty s || negb (includes "@" s)).
Qed.

Lemma chain_valid_iff (T D R : gset string) (l d : string) :
  (if decide (d ∈ T) then TYPO_DOMAIN
   else if decide (d ∈ D) then DISPOSABLE
   else if decide (l ∈ R) then ROLE_BASED else VALID) = VALID
  <-> (d ∉ T) /\ (d ∉ D) /\ (l ∉ R).
Proof.
  repeat case_decide; split; try discriminate; try tauto; intros _; tauto.
Qed.

Lemma chain_not_invalid (T D R : gset string) (l d : string) :
  (if decide (d ∈ T) then TYPO_DOMAIN
   else if decide (d ∈ D) then DISPOSABLE
   else if decide (l ∈ R) then ROLE_BASED else VALID) <> INVALID_FORMAT.
Proof. repeat case_decide; discriminate. Qed.

End ClassifierComplete.

(** X2. The verdict is [VALID] exactly when the normalized input matches
    the syntax pattern, its domain is in neither domain table and its local
    part is not a role prefix. *)
Theorem validateEmail_VALID_iff (s : string) :
  validateEmail s = VALID
  <-> test EMAIL_REGEX (normalize s) = true
      /\ (domain_part (normalize s) ∉ TYPO_DOMAINS)
      /\ (domain_part (normalize s) ∉ DISPOSABLE_DOMAINS)
      /\ (local_part (normalize s) ∉ ROLE_PREFIXES).
Proof.
  destruct (test EMAIL_REGEX (normalize s)) eqn:Hre.
  - rewrite (validateEmail_matched s Hre). unfold classify_by_priority.
    rewrite chain_valid_iff.
    split; [intros H; split; [reflexivity | exact H] | intros [_ H]; exact H].
  - rewrite (validateEmail_unmatched s Hre). split; [discriminate|].
    intros [H _]. discriminate H.
Qed.

(** X3. The verdict is [INVALID_FORMAT] exactly when the normalized input
    fails the syntax pattern (the test for an [@] rejects nothing the
    pattern would accept), and the classifier never answers [DUPLICATE] or
    [MISSING_MX]. *)
Theorem validateEmail_INVALID_FORMAT_iff (s : string) :
  (validateEmail s = INVALID_FORMAT <-> test EMAIL_REGEX (normalize s) = false)
  /\ validateEmail s <> DUPLICATE
  /\ validateEmail s <> MISSING_MX.
Proof.
  split; [|split; [apply validateEmail_not_DUPLICATE
                  | apply validateEmail_not_MISSING_MX]].
  destruct (test EMAIL_REGEX (normalize s)) eqn:Hre.
  - rewrite (validateEmail_matched s Hre). unfold classify_by_priority.
    split; [|discriminate]. intros H. now apply chain_not_invalid in H.
  - now rewrite (validateEmail_unmatched s Hre).
Qed.

(** ** The rule tables *)

(** X4. Every entry of the three tables can decide a verdict: an address
    at a typo domain is [TYPO_DOMAIN], an address at a disposable domain is
    [DISPOSABLE], an address whose local part is a role prefix, at a domain
    outside the tables, is [ROLE_BASED]; every entry is in normal form, and
    no domain is in both domain tables. *)
Theorem rule_tables_live :
  (forall d, d ∈ TYPO_DOMAINS ->
             validateEmail ("user@" ++ d) = TYPO_DOMAIN /\ normalize d = d
             /\ bool_decide (d ∈ DISPOSABLE_DOMAINS) = false)
  /\ (forall d, d ∈ DISPOSABLE_DOMAINS ->
                validateEmail ("user@" ++ d) = DISPOSABLE /\ normalize d = d)
  /\ (forall p, p ∈ ROLE_PREFIXES ->
                validateEmail (p ++ "@acme.io") = ROLE_BASED /\ normalize p = p).
Proof.
  split; [|split].
  - intros d H. unfold TYPO_DOMAINS in H.
    apply elem_of_list_to_set in H.
    repeat (apply elem_of_cons in H as [->|H]; [vm_compute; repeat split|]).
    now apply not_elem_of_nil in H.
  - intros d H. unfold DISPOSABLE_DOMAINS in H.
    apply elem_of_list_to_set in H.
    repeat (apply elem_of_cons in H as [->|H]; [vm_compute; repeat split|]).
    now apply not_elem_of_nil in H.
  - intros p H. unfold ROLE_PREFIXES in H.
    apply elem_of_list_to_set in H.
    repeat (apply elem_of_cons in H as [->|H]; [vm_compute; repeat split|]).
    now apply not_elem_of_nil in H.
Qed.

Lemma rule_tables_live_witness :
  validateEmail "user@yopmail.com" = DISPOSABLE
  /\ validateEmail "user@hotmal.com" = TYPO_DOMAIN
  /\ validateEmail "webmaster@acme.io" = ROLE_BASED.
Proof.
  split; [|split].
  - apply (proj1 (proj2 rule_tables_live) "yopmail.com").
    apply (bool_decide_unpack _). vm_compute. exact I.
  - apply (proj1 rule_tables_live "hotmal.com").
    apply (bool_decide_unpack _). vm_compute. exact I.
  - apply (proj2 (proj2 rule_tables_live) "webmaster").
    apply (bool_decide_unpack _). vm_compute. exact I.
Defined.

(** ** Ingestion *)

Section IngestFacts.

Lemma ingest_fold files : forall acc,
  fold_left
    (fun allRecords file =>
       match file_rows file with
       | Some data => app allRecords (map (enrich (file_name file)) data)
       | None => allRecords
       end)
    files acc
  = app acc (concat (map rows_of_file files)).
Proof.
  induction files as [|f files IH]; intros acc; simpl.
  - now rewrite app_nil_r.
  - rewrite IH. unfold rows_of_file at 2.
    destruct (file_rows f); simpl; [now rewrite <- app_assoc | reflexivity].
Qed.

Lemma ingest_concat files : ingest files = concat (map rows_of_file files).
Proof. unfold ingest. now rewrite ingest_fold. Qed.

Lemma ingest_app fs1 fs2 : ingest (app fs1 fs2) = app (ingest fs1) (ingest fs2).
Proof. now rewrite !ingest_concat, map_app, concat_app. Qed.

Lemma enrich_tag name row : get_prop "_sourceFile" (enrich name row) = VStr name.
Proof. unfold enrich, get_prop. now rewrite lookup_set_prop. Qed.

Lemma ingest_lookup files : forall j row,
  ingest files !! j = Some row ->
  exists f data r0,
    f ∈ files /\ file_rows f = Some data /\ r0 ∈ data
    /\ row = enrich (file_name f) r0.
Proof.
  intros j row Hj. apply list_elem_of_lookup_2 in Hj.
  rewrite ingest_concat in Hj. apply list_elem_of_In, in_concat in Hj.
  destruct Hj as (rows & Hrows & Hrow).
  apply in_map_iff in Hrows as (f & <- & Hf).
  unfold rows_of_file in Hrow.
  destruct (file_rows f) as [data|] eqn:E; [|destruct Hrow].
  apply in_map_iff in Hrow as (r0 & <- & Hr0).
  exists f, data, r0. repeat split; try assumption; now apply list_elem_of_In.
Qed.

Lemma make_record_sourceFile v row raw norm name status :
  lookup_prop "sourceFile" row = None ->
  get_prop "sourceFile" (make_record v row raw norm name status)
  = get_prop "_sourceFile" row.
Proof.
  intros H. unfold make_record. unfold get_prop at 1.
  rewrite (lookup_assign_absent _ _ _ H). now destruct v.
Qed.

End IngestFacts.

(** X5. Files are merged in file order, then row order: the working list
    of two groups of files is the list of the first followed by the list of
    the second, a file the parser rejected contributes nothing, and the
    number of processed rows adds up. *)
Theorem ingest_merge (v : Variant) (fs1 fs2 : list File) :
  ingest (app fs1 fs2) = app (ingest fs1) (ingest fs2)
  /\ (forall name, ingest (app fs1 (mkFile name None :: fs2)) = ingest (app fs1 fs2))
  /\ (forall name data,
        ingest (app fs1 (mkFile name (Some data) :: fs2))
        = app (ingest fs1) (app (map (enrich name) data) (ingest fs2)))
  /\ totalProcessed (stats (processFiles v (app fs1 fs2)))
     = totalProcessed (stats (processFiles v fs1))
       + totalProcessed (stats (processFiles v fs2)).
Proof.
  split; [apply ingest_app|]. split; [|split].
  - intros name. rewrite !ingest_app.
    change (mkFile name None :: fs2) with (app [mkFile name None] fs2).
    now rewrite ingest_app.
  - intros name data. rewrite ingest_app.
    change (mkFile name (Some data) :: fs2) with (app [mkFile name (Some data)] fs2).
    now rewrite ingest_app.
  - assert (Hlen : forall files,
      totalProcessed (stats (processFiles v files)) = length (ingest files)).
    { intros files. rewrite processFiles_stats.
      rewrite <- (assigned_statuses_length v (ingest files) ∅).
      generalize (assigned_statuses v ∅ (ingest files)).
      assert (Hgen : forall l s,
        totalProcessed (fold_left (fun s status => update_stats status s) l s)
        = totalProcessed s + length l).
      { induction l as [|st l IH]; intros s; simpl; [lia|].
        rewrite IH. unfold update_stats. case_bool_decide; simpl; lia. }
      intros l. now rewrite Hgen. }
    now rewrite !Hlen, ingest_app, length_app.
Qed.

(** X6. Every row of the working list carries the name of the file it came
    from under [_sourceFile], also when the file has a column of that name,
    and unless the row has a column [sourceFile] the emitted record shows
    that name as its [sourceFile]. *)
Theorem ingest_tagged (v : Variant) (files : list File) (j : nat) (row : obj) :
  ingest files !! j = Some row ->
  exists f data r0,
    f ∈ files /\ file_rows f = Some data /\ r0 ∈ data
    /\ row = enrich (file_name f) r0
    /\ get_prop "_sourceFile" row = VStr (file_name f)
    /\ (lookup_prop "sourceFile" row = None ->
        exists rec,
          processedRecords (run_loop v (ingest files)) !! j = Some rec
          /\ get_prop "sourceFile" rec = VStr (file_name f)).
Proof.
  intros Hj. destruct (ingest_lookup files j row Hj) as (f & data & r0 & Hf & Hd & Hr & ->).
  exists f, data, r0. repeat split; try assumption.
  - apply enrich_tag.
  - intros Hs. rewrite processedRecords_run_loop.
    rewrite (emitted_records_lookup v _ _ _ _ Hj).
    eexists. split; [reflexivity|].
    rewrite (make_record_sourceFile _ _ _ _ _ _ Hs). apply enrich_tag.
Qed.

Lemma ingest_tagged_witness :
  exists rec,
    processedRecords
      (run_loop Extended
         (ingest [mkFile "a.csv" (Some [[("Email", VStr "x@y.io")]]);
                  mkFile "b.csv" None;
                  mkFile "c.csv" (Some [[("Email", VStr "z@y.io");
                                        ("_sourceFile", VStr "other")]])]))
      !! 1 = Some rec
    /\ get_prop "sourceFile" rec = VStr "c.csv".
Proof.
  set (files := [mkFile "a.csv" (Some [[("Email", VStr "x@y.io")]]);
                 mkFile "b.csv" None;
                 mkFile "c.csv" (Some [[("Email", VStr "z@y.io");
                                       ("_sourceFile", VStr "other")]])]).
  destruct (ingest_tagged Extended files 1
              [("Email", VStr "z@y.io"); ("_sourceFile", VStr "c.csv")] eq_refl)
    as (f & data & r0 & _ & _ & _ & _ & Htag & Hrec).
  destruct (Hrec eq_refl) as (rec & Hj & Hs).
  exists rec. split; [exact Hj|]. rewrite Hs, <- Htag. reflexivity.
Defined.

(** ** Statistics, completely *)

Section CountFacts.

Lemma initial_breakdown_keys : all_keys_present initial_breakdown.
Proof. intros []; vm_compute; eauto. Qed.

Lemma bump_keys status m : all_keys_present m -> all_keys_present (bump status m).
Proof.
  intros H k. unfold bump. destruct (decide (status = k)) as [->|Hne].
  - rewrite lookup_insert_eq. eauto.
  - rewrite lookup_insert_ne by assumption. apply H.
Qed.

Lemma bump_lookup_eq status m :
  bump status m !! status = Some (default 0 (m !! status) + 1).
Proof. unfold bump. apply lookup_insert_eq. Qed.

Lemma count_status_cons k st l :
  count_status k (st :: l)
  = (if bool_decide (st = k) then 1 else 0) + count_status k l.
Proof.
  unfold count_status. simpl.
  destruct (EmailStatus_eq_dec st k); case_bool_decide; try contradiction;
    reflexivity.
Qed.

Lemma update_stats_step st s :
  totalProcessed (update_stats st s) = S (totalProcessed s)
  /\ totalValid (update_stats st s)
     = totalValid s + (if bool_decide (st = VALID) then 1 else 0)
  /\ totalDuplicates (update_stats st s)
     = totalDuplicates s + (if bool_decide (st = DUPLICATE) then 1 else 0)
  /\ (forall k, k <> VALID ->
        default 0 (invalidBreakdown (update_stats st s) !! k)
        = default 0 (invalidBreakdown s !! k)
          + (if bool_decide (st = k) then 1 else 0))
  /\ invalidBreakdown (update_stats st s) !! VALID = invalidBreakdown s !! VALID.
Proof.
  unfold update_stats. destruct (bool_decide (st = VALID)) eqn:Hv; simpl.
  - apply bool_decide_eq_true in Hv. subst st.
    split; [reflexivity|]. split; [lia|]. split.
    { rewrite bool_decide_eq_false_2 by discriminate. lia. }
    split; [|reflexivity].
    intros k Hk. rewrite bool_decide_eq_false_2 by congruence. lia.
  - apply bool_decide_eq_false in Hv.
    split; [reflexivity|]. split; [lia|]. split.
    { destruct (bool_decide (st = DUPLICATE)); lia. }
    split; [|now apply bump_lookup_ne].
    intros k Hk. destruct (bool_decide (st = k)) eqn:Hk'.
    + apply bool_decide_eq_true in Hk'. subst k.
      rewrite bump_lookup_eq. reflexivity.
    + apply bool_decide_eq_false in Hk'.
      rewrite bump_lookup_ne by assumption. lia.
Qed.

Lemma fold_update_stats_counts l : forall s,
  let s' := fold_left (fun s status => update_stats status s) l s in
  totalProcessed s' = totalProcessed s + length l
  /\ totalValid s' = totalValid s + count_status VALID l
  /\ totalDuplicates s' = totalDuplicates s + count_status DUPLICATE l
  /\ (forall k, k <> VALID ->
        default 0 (invalidBreakdown s' !! k)
        = default 0 (invalidBreakdown s !! k) + count_status k l)
  /\ invalidBreakdown s' !! VALID = invalidBreakdown s !! VALID.
Proof.
  induction l as [|st l IH]; intros s; cbv zeta; cbn [fold_left length].
  - unfold count_status. simpl. repeat split; try lia.
  - destruct (IH (update_stats st s)) as (H1 & H2 & H3 & H4 & H5).
    destruct (update_stats_step st s) as (U1 & U2 & U3 & U4 & U5).
    rewrite H1, H2, H3, H5, U1, U2, U3, U5, !count_status_cons.
    split; [lia|]. split; [lia|]. split; [lia|]. split; [|reflexivity].
    intros k Hk. rewrite (H4 k Hk), (U4 k Hk), count_status_cons. lia.
Qed.

Lemma emitted_records_length v rows : forall seen,
  length (emitted_records v seen rows) = length rows.
Proof.
  induction rows as [|row rows IH]; intros seen; simpl; [reflexivity|].
  destruct (assign_status v seen (rawEmail_of row) (normalizedEmail_of row)).
  simpl. now rewrite IH.
Qed.

Lemma status_string_inj st1 st2 :
  status_string st1 = status_string st2 -> st1 = st2.
Proof. destruct st1, st2; simpl; intros H; try reflexivity; discriminate H. Qed.

Lemma status_is_valid_record v row raw norm name status :
  lookup_prop "status" row = None ->
  status_is_valid (make_record v row raw norm name status)
  = bool_decide (status = VALID).
Proof.
  intros H. unfold status_is_valid.
  rewrite (proj2 (proj2 (make_record_computed v row raw norm name status)) H).
  apply bool_decide_ext. split.
  - intros E. injection E as E. now apply status_string_inj.
  - now intros ->.
Qed.

Lemma valid_records_count v rows : forall seen,
  Forall (fun row => lookup_prop "status" row = None) rows ->
  length (List.filter status_is_valid (emitted_records v seen rows))
  = count_status VALID (assigned_statuses v seen rows).
Proof.
  induction rows as [|row rows IH]; intros seen Hrows; [reflexivity|].
  apply Forall_cons in Hrows as [Hrow Hrows].
  cbn [emitted_records assigned_statuses].
  destruct (assign_status v seen (rawEmail_of row) (normalizedEmail_of row))
    as [status seen'].
  cbn [List.filter].
  rewrite (status_is_valid_record v _ _ _ _ _ Hrow), count_status_cons.
  case_bool_decide; cbn [length]; now rewrite (IH _ Hrows).
Qed.

Lemma enrich_lookup_absent name row k :
  k <> "_sourceFile" -> lookup_prop k row = None ->
  lookup_prop k (enrich name row) = None.
Proof.
  intros Hk H. unfold enrich. rewrite lookup_set_prop.
  rewrite (proj2 (String.eqb_neq _ _) Hk).
  now rewrite (lookup_assign_absent _ _ _ H).
Qed.

Lemma validRecords_processFiles v files :
  validRecords (processFiles v files)
  = List.filter status_is_valid (emitted_records v ∅ (ingest files)).
Proof.
  unfold processFiles, finish. cbn [validRecords].
  now rewrite processedRecords_run_loop.
Qed.

Lemma invalidRecords_processFiles v files :
  invalidRecords (processFiles v files)
  = List.filter (fun r => negb (status_is_valid r))
                (emitted_records v ∅ (ingest files)).
Proof.
  unfold processFiles, finish. cbn [invalidRecords].
  now rewrite processedRecords_run_loop.
Qed.

Lemma processFiles_counts v files :
  totalProcessed (stats (processFiles v files)) = length (ingest files)
  /\ totalValid (stats (processFiles v files))
     = count_status VALID (assigned_statuses v ∅ (ingest files))
  /\ totalDuplicates (stats (processFiles v files))
     = count_status DUPLICATE (assigned_statuses v ∅ (ingest files)).
Proof.
  rewrite processFiles_stats.
  destruct (fold_update_stats_counts (assigned_statuses v ∅ (ingest files))
              initial_stats) as (H1 & H2 & H3 & _).
  rewrite H1, H2, H3. simpl. now rewrite assigned_statuses_length.
Qed.

Lemma filter_split_length {A} (p : A -> bool) (l : list A) :
  length (List.filter p l) + length (List.filter (fun x => negb (p x)) l)
  = length l.
Proof.
  induction l as [|x l IH]; simpl; [reflexivity|].
  destruct (p x); simpl; lia.
Qed.

End CountFacts.

(** X7. The counters are the counts of the statuses the loop assigned:
    [totalProcessed] is the number of rows, [totalValid] the number of
    [VALID] rows, every entry of the breakdown other than [VALID] the
    number of rows with that status, and [totalDuplicates] equals the
    breakdown's [DUPLICATE] entry. *)
Theorem stats_are_counts (v : Variant) (files : list File) :
  let s := stats (processFiles v files) in
  let statuses := assigned_statuses v ∅ (ingest files) in
  totalProcessed s = length (ingest files)
  /\ totalValid s = count_status VALID statuses
  /\ (forall k, k <> VALID ->
                invalidBreakdown s !! k = Some (count_status k statuses))
  /\ invalidBreakdown s !! DUPLICATE = Some (totalDuplicates s)
  /\ totalValid s <= totalProcessed s.
Proof.
  intros s statuses.
  pose proof (fold_update_stats_counts statuses initial_stats) as H.
  unfold s. rewrite processFiles_stats. fold statuses.
  destruct H as (H1 & H2 & H3 & H4 & H5). simpl in H1, H2, H3.
  assert (Hkeys : forall l s0, all_keys_present (invalidBreakdown s0) ->
            all_keys_present
              (invalidBreakdown
                 (fold_left (fun s status => update_stats status s) l s0))).
  { induction l as [|st l IH]; intros s0 Hs0; simpl; [exact Hs0|].
    apply IH. unfold update_stats. case_bool_decide; simpl;
      [exact Hs0 | now apply bump_keys]. }
  assert (Hk : forall k, k <> VALID ->
    invalidBreakdown
      (fold_left (fun s status => update_stats status s) statuses initial_stats)
      !! k = Some (count_status k statuses)).
  { intros k Hne. specialize (H4 k Hne).
    destruct (Hkeys statuses initial_stats initial_breakdown_keys k) as [n Hn].
    rewrite Hn in *. simpl in H4. f_equal. rewrite H4.
    destruct k; try contradiction; reflexivity. }
  split; [|split; [|split; [|split]]].
  - rewrite H1. unfold statuses. now rewrite assigned_statuses_length.
  - exact H2.
  - exact Hk.
  - rewrite (Hk DUPLICATE) by discriminate. now rewrite H3.
  - rewrite H1, H2. unfold count_status.
    pose proof (count_occ_bound EmailStatus_eq_dec VALID statuses). lia.
Qed.

(** X8. Every row yields exactly one record and every record lands in
    exactly one of the two lists, each of which keeps the processing
    order: together they have as many records as rows were processed. *)
Theorem records_partitioned (v : Variant) (files : list File) :
  let result := processFiles v files in
  let records := processedRecords (run_loop v (ingest files)) in
  length records = length (ingest files)
  /\ length (validRecords result) + length (invalidRecords result)
     = totalProcessed (stats result)
  /\ app (validRecords result) (invalidRecords result) ≡ₚ records
  /\ validRecords result `sublist_of` records
  /\ invalidRecords result `sublist_of` records.
Proof.
  intros result records. unfold result, records.
  rewrite validRecords_processFiles, invalidRecords_processFiles.
  rewrite processedRecords_run_loop.
  destruct (processFiles_counts v files) as (-> & _).
  rewrite filter_split_length, emitted_records_length.
  split; [reflexivity|]. split; [reflexivity|].
  generalize (emitted_records v ∅ (ingest files)). intros l.
  split; [|split].
  - induction l as [|r l IH]; simpl; [reflexivity|].
    destruct (status_is_valid r); simpl.
    + now constructor.
    + etransitivity; [symmetry; apply Permutation_middle|]. now constructor.
  - induction l as [|r l IH]; simpl; [constructor|].
    destruct (status_is_valid r); now constructor.
  - induction l as [|r l IH]; simpl; [constructor|].
    destruct (status_is_valid r); now constructor.
Qed.

(** X9. When no parsed row has a column headed [status], the two lists
    agree with the counters: there are [totalValid] valid records and
    [totalProcessed - totalValid] invalid ones. *)
Theorem records_match_stats (v : Variant) (files : list File) :
  (forall f data row, f ∈ files -> file_rows f = Some data -> row ∈ data ->
                      lookup_prop "status" row = None) ->
  let result := processFiles v files in
  length (validRecords result) = totalValid (stats result)
  /\ length (invalidRecords result)
     = totalProcessed (stats result) - totalValid (stats result).
Proof.
  intros Hcols result.
  assert (Hrows : Forall (fun row => lookup_prop "status" row = None) (ingest files)).
  { apply Forall_forall. intros row Hrow.
    apply list_elem_of_lookup in Hrow as [j Hj].
    destruct (ingest_lookup files j row Hj) as (f & data & r0 & Hf & Hd & Hr & ->).
    apply enrich_lookup_absent; [discriminate | now apply (Hcols f data)]. }
  pose proof (filter_split_length status_is_valid
                (emitted_records v ∅ (ingest files))) as Hsplit.
  rewrite emitted_records_length in Hsplit.
  unfold result.
  rewrite validRecords_processFiles, invalidRecords_processFiles.
  destruct (processFiles_counts v files) as (-> & -> & _).
  rewrite (valid_records_count v _ _ Hrows) in *. lia.
Qed.

Lemma records_match_stats_witness :
  let result :=
    processFiles Extended
      (one_file [[("Email", VStr "ann@acme.io")]; [("Email", VStr "nope")];
                 [("Email", VStr "ANN@acme.io")]]) in
  length (validRecords result) = totalValid (stats result)
  /\ length (invalidRecords result)
     = totalProcessed (stats result) - totalValid (stats result).
Proof.
  apply records_match_stats.
  intros f data row Hf Hd Hrow.
  apply list_elem_of_singleton in Hf. subst f. injection Hd as <-.
  repeat (apply elem_of_cons in Hrow as [->|Hrow]; [reflexivity|]).
  now apply not_elem_of_nil in Hrow.
Defined.

(** ** Deduplication, counted *)

Section DedupCount.

Context (v : Variant).

Lemma assigned_statuses_cons seen row rows :
  assigned_statuses v seen (row :: rows)
  = fst (assign_status v seen (rawEmail_of row) (normalizedEmail_of row))
    :: assigned_statuses v
         (snd (assign_status v seen (rawEmail_of row) (normalizedEmail_of row)))
         rows.
Proof.
  cbn [assigned_statuses].
  now destruct (assign_status v seen (rawEmail_of row) (normalizedEmail_of row)).
Qed.

Lemma seen_after_cons seen row rows :
  seen_after v seen (row :: rows)
  = seen_after v
      (snd (assign_status v seen (rawEmail_of row) (normalizedEmail_of row)))
      rows.
Proof. reflexivity. Qed.

Lemma assigned_statuses_app rows1 : forall seen rows2,
  assigned_statuses v seen (app rows1 rows2)
  = app (assigned_statuses v seen rows1)
        (assigned_statuses v (seen_after v seen rows1) rows2).
Proof.
  induction rows1 as [|row rows1 IH]; intros seen rows2; [reflexivity|].
  rewrite <- app_comm_cons, !assigned_statuses_cons, seen_after_cons, IH.
  reflexivity.
Qed.

Lemma seen_after_app rows1 : forall seen rows2,
  seen_after v seen (app rows1 rows2)
  = seen_after v (seen_after v seen rows1) rows2.
Proof.
  induction rows1 as [|row rows1 IH]; intros seen rows2; [reflexivity|].
  rewrite <- app_comm_cons, !seen_after_cons. apply IH.
Qed.

Lemma count_status_app k l1 l2 :
  count_status k (app l1 l2) = count_status k l1 + count_status k l2.
Proof. unfold count_status. apply count_occ_app. Qed.

Lemma dedup_count rows : forall seen,
  count_status DUPLICATE (assigned_statuses v seen rows)
  + size (seen_after v seen rows)
  = size seen + length (List.filter has_raw_email rows).
Proof.
  induction rows as [|row rows IH]; intros seen.
  - unfold count_status. simpl. lia.
  - rewrite assigned_statuses_cons, seen_after_cons, count_status_cons.
    cbn [List.filter]. unfold has_raw_email at 1.
    rewrite assign_status_cases.
    destruct (is_empty (rawEmail_of row)); cbn [fst snd negb].
    + rewrite bool_decide_eq_false_2 by discriminate. apply IH.
    + destruct (decide (normalizedEmail_of row ∈ seen)) as [Hin|Hout].
      * rewrite (bool_decide_eq_true_2 _ Hin). cbn [fst snd length].
        rewrite bool_decide_eq_true_2 by reflexivity.
        specialize (IH seen). lia.
      * rewrite (bool_decide_eq_false_2 _ Hout). cbn [fst snd length].
        rewrite bool_decide_eq_false_2 by apply validateEmail_not_DUPLICATE.
        specialize (IH ({[normalizedEmail_of row]} ∪ seen)).
        rewrite size_union, size_singleton in IH by set_solver. lia.
Qed.

(** Rows all of whose non-empty emails are in the set already. *)
Lemma assigned_statuses_known rows : forall seen,
  (forall r, r ∈ rows -> rawEmail_of r <> EmptyString ->
             normalizedEmail_of r ∈ seen) ->
  count_status VALID (assigned_statuses v seen rows) = 0
  /\ count_status DUPLICATE (assigned_statuses v seen rows)
     = length (List.filter has_raw_email rows).
Proof.
  induction rows as [|row rows IH]; intros seen Hknown; [split; reflexivity|].
  rewrite assigned_statuses_cons, !count_status_cons.
  cbn [List.filter]. unfold has_raw_email at 1.
  rewrite assign_status_cases.
  destruct (is_empty (rawEmail_of row)) eqn:Hraw; cbn [fst snd negb].
  - rewrite (bool_decide_eq_false_2 (INVALID_FORMAT = VALID)) by discriminate.
    rewrite (bool_decide_eq_false_2 (INVALID_FORMAT = DUPLICATE)) by discriminate.
    apply IH. intros r Hr. apply Hknown. now apply list_elem_of_further.
  - assert (Hin : normalizedEmail_of row ∈ seen)
      by (apply Hknown; [apply list_elem_of_here | now apply is_empty_false]).
    rewrite (bool_decide_eq_true_2 _ Hin). cbn [fst snd length].
    rewrite (bool_decide_eq_false_2 (DUPLICATE = VALID)) by discriminate.
    rewrite (bool_decide_eq_true_2 (DUPLICATE = DUPLICATE)) by reflexivity.
    destruct (IH seen) as [IH1 IH2]; [|lia].
    intros r Hr. apply Hknown. now apply list_elem_of_further.
Qed.

Lemma seen_after_mono rows : forall seen x,
  x ∈ seen -> x ∈ seen_after v seen rows.
Proof. intros seen x H. apply elem_of_seen_after. now left. Qed.

Lemma uniqueEmails_run_loop rows :
  uniqueEmails (run_loop v rows) = seen_after v ∅ rows.
Proof. unfold run_loop. now rewrite run_loop_unfold. Qed.

End DedupCount.

(** X10. Every row with a non-empty raw email either enlarges the set or
    is a duplicate: the number of duplicates plus the size of the set at
    the end of the run is the number of rows with a non-empty raw email. *)
Theorem duplicates_counted (v : Variant) (files : list File) :
  totalDuplicates (stats (processFiles v files))
  + size (uniqueEmails (run_loop v (ingest files)))
  = length (List.filter has_raw_email (ingest files)).
Proof.
  destruct (processFiles_counts v files) as (_ & _ & ->).
  rewrite uniqueEmails_run_loop, dedup_count, size_empty. reflexivity.
Qed.

(** X11. Two different rows that are both assigned [VALID] have different
    normalized emails: no address is accepted twice in one run. *)
Theorem valid_emails_distinct (v : Variant) (files : list File)
    (i j : nat) (ri rj : obj) :
  i <> j ->
  ingest files !! i = Some ri -> ingest files !! j = Some rj ->
  assigned_statuses v ∅ (ingest files) !! i = Some VALID ->
  assigned_statuses v ∅ (ingest files) !! j = Some VALID ->
  normalizedEmail_of ri <> normalizedEmail_of rj.
Proof.
  assert (Hlt : forall a b ra rb,
    a < b ->
    ingest files !! a = Some ra -> ingest files !! b = Some rb ->
    assigned_statuses v ∅ (ingest files) !! a = Some VALID ->
    assigned_statuses v ∅ (ingest files) !! b = Some VALID ->
    normalizedEmail_of ra <> normalizedEmail_of rb).
  { intros a b ra rb Hab Ha Hb Sa Sb Heq.
    rewrite (status_at v _ _ _ Ha) in Sa. rewrite (status_at v _ _ _ Hb) in Sb.
    destruct (is_empty (rawEmail_of ra)) eqn:Ea; [discriminate|].
    destruct (is_empty (rawEmail_of rb)) eqn:Eb; [discriminate|].
    rewrite bool_decide_eq_true_2 in Sb; [discriminate|].
    apply elem_of_seen_before. exists a, ra.
    repeat split; try assumption. now apply is_empty_false. }
  intros Hne Hi Hj Si Sj.
  destruct (Nat.lt_total i j) as [H|[H|H]]; [|contradiction|].
  - now apply (Hlt i j).
  - intros Heq. now apply (Hlt j i rj ri).
Qed.

Lemma valid_emails_distinct_witness :
  normalizedEmail_of [("Email", VStr "ann@acme.io"); ("_sourceFile", VStr "in.csv")]
  <> normalizedEmail_of [("Email", VStr "bob@acme.io"); ("_sourceFile", VStr "in.csv")].
Proof.
  apply (valid_emails_distinct Extended
           (one_file [[("Email", VStr "ann@acme.io")]; [("Email", VStr "bob@acme.io")]])
           0 1); [lia | reflexivity | reflexivity | |];
    vm_compute; reflexivity.
Defined.

(** X12. Rows that only repeat addresses already met add no valid row:
    when every non-empty email of a second group of files occurs, up to
    normalization, in the first group, processing both groups gives the
    valid count of the first group, and each repeated row with a non-empty
    email counts as a duplicate. *)
Theorem repeated_rows_add_no_valid (v : Variant) (fs1 fs2 : list File) :
  (forall r, r ∈ ingest fs2 -> rawEmail_of r <> EmptyString ->
             exists r', r' ∈ ingest fs1 /\ rawEmail_of r' <> EmptyString
                        /\ normalizedEmail_of r' = normalizedEmail_of r) ->
  totalValid (stats (processFiles v (app fs1 fs2)))
  = totalValid (stats (processFiles v fs1))
  /\ totalDuplicates (stats (processFiles v (app fs1 fs2)))
     = totalDuplicates (stats (processFiles v fs1))
       + length (List.filter has_raw_email (ingest fs2)).
Proof.
  intros Hrep.
  destruct (processFiles_counts v (app fs1 fs2)) as (_ & -> & ->).
  destruct (processFiles_counts v fs1) as (_ & -> & ->).
  rewrite ingest_app, assigned_statuses_app, !count_status_app.
  destruct (assigned_statuses_known v (ingest fs2) (seen_after v ∅ (ingest fs1)))
    as [H1 H2].
  { intros r Hr Hraw. destruct (Hrep r Hr Hraw) as (r' & Hr' & Hraw' & Heq).
    apply elem_of_seen_after. right. now exists r'. }
  rewrite H1, H2. split; lia.
Qed.

Lemma repeated_rows_add_no_valid_witness :
  let files := one_file [[("Email", VStr "ann@acme.io")]; [("Email", VStr "")]] in
  totalValid (stats (processFiles Extended (app files files)))
  = totalValid (stats (processFiles Extended files))
  /\ totalDuplicates (stats (processFiles Extended (app files files)))
     = totalDuplicates (stats (processFiles Extended files))
       + length (List.filter has_raw_email (ingest files)).
Proof.
  apply repeated_rows_add_no_valid.
  intros r Hr Hraw. exists r. repeat split; assumption.
Defined.

(** ** The two variants *)

Section VariantFacts.

Lemma assign_status_variant v seen raw norm :
  assign_status v seen raw norm = assign_status Extended seen raw norm.
Proof. now rewrite !assign_status_cases. Qed.

Lemma assigned_statuses_variant v rows : forall seen,
  assigned_statuses v seen rows = assigned_statuses Extended seen rows.
Proof.
  induction rows as [|row rows IH]; intros seen; [reflexivity|].
  now rewrite !assigned_statuses_cons, assign_status_variant, IH.
Qed.

Lemma seen_after_variant v rows : forall seen,
  seen_after v seen rows = seen_after Extended seen rows.
Proof.
  induction rows as [|row rows IH]; intros seen; [reflexivity|].
  now rewrite !seen_after_cons, assign_status_variant, IH.
Qed.

Lemma lookup_assign_congr k src : forall o1 o2,
  lookup_prop k o1 = lookup_prop k o2 ->
  lookup_prop k (assign o1 src) = lookup_prop k (assign o2 src).
Proof.
  unfold assign. induction src as [|[k0 v0] src IH]; intros o1 o2 H; simpl;
    [exact H|].
  apply IH. rewrite !lookup_set_prop. now rewrite H.
Qed.

Lemma make_record_variant row raw norm name status k :
  k <> "name" ->
  get_prop k (make_record Basic row raw norm name status)
  = get_prop k (make_record Extended row raw norm name status).
Proof.
  intros Hk. unfold get_prop, make_record.
  erewrite (lookup_assign_congr k row); [reflexivity|].
  unfold literal, assign. simpl fold_left.
  rewrite !lookup_set_prop.
  now rewrite (proj2 (String.eqb_neq _ _) Hk).
Qed.

End VariantFacts.

(** X13. The basic and the extended variant classify alike: they assign
    the same statuses, end with the same set and the same statistics, and
    their records agree on every property other than [name]. *)
Theorem variants_agree (files : list File) :
  assigned_statuses Basic ∅ (ingest files)
  = assigned_statuses Extended ∅ (ingest files)
  /\ uniqueEmails (run_loop Basic (ingest files))
     = uniqueEmails (run_loop Extended (ingest files))
  /\ stats (processFiles Basic files) = stats (processFiles Extended files)
  /\ (forall j recB recE k,
        processedRecords (run_loop Basic (ingest files)) !! j = Some recB ->
        processedRecords (run_loop Extended (ingest files)) !! j = Some recE ->
        k <> "name" -> get_prop k recB = get_prop k recE).
Proof.
  split; [apply assigned_statuses_variant|].
  split; [now rewrite !uniqueEmails_run_loop, seen_after_variant|].
  split; [now rewrite !processFiles_stats, assigned_statuses_variant|].
  intros j recB recE k HB HE Hk.
  rewrite processedRecords_run_loop in HB, HE.
  destruct (lookup_lt_is_Some_2 (ingest files) j) as [row Hrow].
  { apply lookup_lt_Some in HB. now rewrite emitted_records_length in HB. }
  rewrite (emitted_records_lookup _ _ _ _ _ Hrow) in HB.
  rewrite (emitted_records_lookup _ _ _ _ _ Hrow) in HE.
  injection HB as <-. injection HE as <-.
  rewrite seen_after_variant, assign_status_variant.
  now apply make_record_variant.
Qed.

(** ** Independence of the order *)

Section OrderFacts.

Context (v : Variant).

Lemma two_steps_commute seen x y :
  let sx := assign_status v seen (rawEmail_of x) (normalizedEmail_of x) in
  let sxy := assign_status v (snd sx) (rawEmail_of y) (normalizedEmail_of y) in
  let sy := assign_status v seen (rawEmail_of y) (normalizedEmail_of y) in
  let syx := assign_status v (snd sy) (rawEmail_of x) (normalizedEmail_of x) in
  snd sxy = snd syx /\ [fst sx; fst sxy] ≡ₚ [fst sy; fst syx].
Proof.
  cbv zeta. rewrite !assign_status_cases.
  set (nx := normalizedEmail_of x). set (ny := normalizedEmail_of y).
  destruct (is_empty (rawEmail_of x)); cbn [fst snd].
  { destruct (is_empty (rawEmail_of y)); cbn [fst snd]; [split; reflexivity|].
    destruct (bool_decide (ny ∈ seen)); cbn [fst snd];
      (split; [reflexivity | apply perm_swap]). }
  destruct (is_empty (rawEmail_of y)); cbn [fst snd].
  { destruct (bool_decide (nx ∈ seen)); cbn [fst snd];
      (split; [reflexivity | apply perm_swap]). }
  destruct (decide (nx ∈ seen)) as [Hx|Hx];
    destruct (decide (ny ∈ seen)) as [Hy|Hy].
  - repeat first [ rewrite (bool_decide_eq_true_2 _ Hx)
                 | rewrite (bool_decide_eq_true_2 _ Hy)
                 | progress cbn [fst snd] ].
    split; reflexivity.
  - assert (Hx' : nx ∈ {[ny]} ∪ seen) by set_solver.
    repeat first [ rewrite (bool_decide_eq_true_2 _ Hx)
                 | rewrite (bool_decide_eq_false_2 _ Hy)
                 | rewrite (bool_decide_eq_true_2 _ Hx')
                 | progress cbn [fst snd] ].
    split; [reflexivity | apply perm_swap].
  - assert (Hy' : ny ∈ {[nx]} ∪ seen) by set_solver.
    repeat first [ rewrite (bool_decide_eq_false_2 _ Hx)
                 | rewrite (bool_decide_eq_true_2 _ Hy)
                 | rewrite (bool_decide_eq_true_2 _ Hy')
                 | progress cbn [fst snd] ].
    split; [reflexivity | apply perm_swap].
  - destruct (decide (nx = ny)) as [Heq|Hne].
    + rewrite <- Heq in *.
      assert (Hx' : nx ∈ {[nx]} ∪ seen) by set_solver.
      repeat first [ rewrite (bool_decide_eq_false_2 _ Hx)
                   | rewrite (bool_decide_eq_true_2 _ Hx')
                   | progress cbn [fst snd] ].
      split; reflexivity.
    + assert (Hx' : nx ∉ {[ny]} ∪ seen).
      { rewrite elem_of_union, elem_of_singleton. tauto. }
      assert (Hy' : ny ∉ {[nx]} ∪ seen).
      { rewrite elem_of_union, elem_of_singleton. intros [E|E]; auto. }
      repeat first [ rewrite (bool_decide_eq_false_2 _ Hx)
                   | rewrite (bool_decide_eq_false_2 _ Hy)
                   | rewrite (bool_decide_eq_false_2 _ Hx')
                   | rewrite (bool_decide_eq_false_2 _ Hy')
                   | progress cbn [fst snd] ].
      split; [|apply perm_swap].
      now rewrite !(assoc_L (∪)), (comm_L (∪) {[ny]} {[nx]}).
Qed.

Lemma assigned_statuses_perm rows rows' :
  rows ≡ₚ rows' ->
  forall seen,
    seen_after v seen rows = seen_after v seen rows'
    /\ assigned_statuses v seen rows ≡ₚ assigned_statuses v seen rows'.
Proof.
  induction 1 as [|x l l' Hl IH|x y l|l l' l'' H1 IH1 H2 IH2]; intros seen.
  - split; reflexivity.
  - rewrite !seen_after_cons, !assigned_statuses_cons.
    destruct (IH (snd (assign_status v seen (rawEmail_of x) (normalizedEmail_of x))))
      as [E P].
    split; [exact E | now constructor].
  - rewrite !seen_after_cons, !assigned_statuses_cons.
    destruct (two_steps_commute seen y x) as [E P]. cbv zeta in E, P.
    rewrite E. split; [reflexivity|].
    apply (Permutation_app P (Permutation_refl _)).
  - destruct (IH1 seen) as [E1 P1]. destruct (IH2 seen) as [E2 P2].
    split; [congruence | etransitivity; eassumption].
Qed.

Lemma bump_comm a b (m : gmap EmailStatus nat) :
  bump a (bump b m) = bump b (bump a m).
Proof.
  destruct (decide (a = b)) as [->|Hne]; [reflexivity|].
  unfold bump. rewrite !lookup_insert_ne by congruence.
  now apply insert_insert_ne.
Qed.

Lemma update_stats_comm a b s :
  update_stats a (update_stats b s) = update_stats b (update_stats a s).
Proof.
  unfold update_stats.
  destruct (bool_decide (a = VALID)); destruct (bool_decide (b = VALID));
    simpl; try reflexivity.
  f_equal.
  - destruct (bool_decide (a = DUPLICATE)), (bool_decide (b = DUPLICATE));
      reflexivity.
  - apply bump_comm.
Qed.

Lemma fold_update_stats_perm l l' :
  l ≡ₚ l' ->
  forall s,
    fold_left (fun s status => update_stats status s) l s
    = fold_left (fun s status => update_stats status s) l' s.
Proof.
  induction 1 as [|x l l' Hl IH|x y l|l l' l'' H1 IH1 H2 IH2]; intros s; simpl.
  - reflexivity.
  - apply IH.
  - now rewrite update_stats_comm.
  - now rewrite IH1, IH2.
Qed.

Lemma ingest_perm files files' : files ≡ₚ files' -> ingest files ≡ₚ ingest files'.
Proof.
  rewrite !ingest_concat.
  induction 1 as [|x l l' Hl IH|x y l|l l' l'' H1 IH1 H2 IH2]; simpl.
  - reflexivity.
  - now apply Permutation_app_head.
  - rewrite !app_assoc. apply Permutation_app_tail, Permutation_app_comm.
  - etransitivity; eassumption.
Qed.

End OrderFacts.

(** X14. The statistics and the final set do not depend on the order of
    the rows, hence not on the order in which the files are selected: two
    selections whose working lists are rearrangements of each other give
    the same counters and the same set, and rearranging the files
    rearranges the working list. *)
Theorem stats_order_independent (v : Variant) (files files' : list File) :
  (ingest files ≡ₚ ingest files' ->
   stats (processFiles v files) = stats (processFiles v files')
   /\ uniqueEmails (run_loop v (ingest files))
      = uniqueEmails (run_loop v (ingest files')))
  /\ (files ≡ₚ files' -> ingest files ≡ₚ ingest files').
Proof.
  split; [|apply ingest_perm].
  intros Hperm.
  destruct (assigned_statuses_perm v _ _ Hperm ∅) as [E P].
  split.
  - rewrite !processFiles_stats. now apply fold_update_stats_perm.
  - now rewrite !uniqueEmails_run_loop.
Qed.

Lemma stats_order_independent_witness :
  let a := mkFile "a.csv" (Some [[("Email", VStr "ann@acme.io")];
                                 [("Email", VStr "info@acme.io")]]) in
  let b := mkFile "b.csv" (Some [[("Email", VStr "ANN@acme.io ")];
                                 [("Email", VStr "")]]) in
  stats (processFiles Extended [a; b]) = stats (processFiles Extended [b; a]).
Proof.
  intros a b.
  destruct (stats_order_independent Extended [a; b] [b; a]) as [Hstats Hrows].
  apply Hstats, Hrows, perm_swap.
Defined.

(** ** Copying and tagging rows *)

Section TagFacts.

Lemma insert_index_end {A} n k (v : A) (o : list (string * A)) :
  Forall (fun kv => exists m, array_index (fst kv) = Some m /\ (m < n)%N) o ->
  insert_index n k v o = app o [(k, v)].
Proof.
  induction 1 as [|[k0 v0] o (m & Hm & Hlt) _ IH]; simpl; [reflexivity|].
  simpl in Hm. rewrite Hm, (proj2 (N.ltb_lt _ _) Hlt). now rewrite IH.
Qed.

Lemma canonical_snoc_set acc k v rest :
  canonical_object (app acc ((k, v) :: rest)) ->
  set_prop k v acc = app acc [(k, v)].
Proof.
  intros [Hnd Hord]. unfold set_prop.
  assert (Hk : k ∉ keys acc).
  { unfold keys in Hnd. rewrite map_app in Hnd. simpl in Hnd.
    apply NoDup_app in Hnd as (_ & Hdisj & _).
    intros Hin. apply (Hdisj _ Hin). apply list_elem_of_here. }
  rewrite (proj2 (lookup_prop_None k acc) Hk).
  destruct (array_index k) as [n|] eqn:Hidx; [|reflexivity].
  apply insert_index_end. apply Forall_forall. intros [k0 v0] Hin.
  apply list_elem_of_lookup in Hin as [i Hi]. simpl.
  assert (Hki : keys (app acc ((k, v) :: rest)) !! i = Some k0).
  { unfold keys. rewrite list_lookup_fmap, lookup_app_l
      by (now apply lookup_lt_Some in Hi). now rewrite Hi. }
  assert (Hkj : keys (app acc ((k, v) :: rest)) !! length acc = Some k).
  { unfold keys. rewrite list_lookup_fmap, lookup_app_r by lia.
    now rewrite Nat.sub_diag. }
  specialize (Hord i (length acc) k0 k (lookup_lt_Some _ _ _ Hi) Hki Hkj).
  now rewrite Hidx in Hord.
Qed.

Lemma assign_canonical src : forall acc,
  canonical_object (app acc src) -> assign acc src = app acc src.
Proof.
  induction src as [|[k v] src IH]; intros acc Hc.
  - now rewrite app_nil_r.
  - change (assign acc ((k, v) :: src)) with (assign (set_prop k v acc) src).
    rewrite (canonical_snoc_set acc k v src Hc).
    rewrite IH; rewrite <- app_assoc; [reflexivity | exact Hc].
Qed.

Lemma keys_replace_prop {A} k (v : A) (o : list (string * A)) : keys (replace_prop k v o) = keys o.
Proof.
  induction o as [|[k0 v0] o IH]; simpl; [reflexivity|].
  destruct (String.eqb k k0); simpl; [reflexivity | now rewrite IH].
Qed.

(** Setting a key that no predicate of the resolvers accepts does not
    change what [find] meets. *)
Lemma find_keys_set_prop (p : string -> bool) tag v (o : obj) :
  array_index tag = None -> p tag = false ->
  find p (keys (set_prop tag v o)) = find p (keys o).
Proof.
  intros Hidx Hp. unfold set_prop.
  destruct (lookup_prop tag o); [now rewrite keys_replace_prop|].
  rewrite Hidx. unfold keys. rewrite map_app. simpl.
  induction (map fst o) as [|k ks IH]; simpl; [now rewrite Hp|].
  destruct (p k); [reflexivity | exact IH].
Qed.

Lemma get_prop_set_prop_ne k tag v o :
  k <> tag -> get_prop k (set_prop tag v o) = get_prop k o.
Proof.
  intros Hne. unfold get_prop. rewrite lookup_set_prop.
  now rewrite (proj2 (String.eqb_neq _ _) Hne).
Qed.

Lemma found_cell_set_prop (p : string -> bool) tag v o :
  array_index tag = None -> p tag = false ->
  option_map (fun k => get_prop k (set_prop tag v o))
             (find p (keys (set_prop tag v o)))
  = option_map (fun k => get_prop k o) (find p (keys o)).
Proof.
  intros Hidx Hp. rewrite (find_keys_set_prop p tag v o Hidx Hp).
  destruct (find p (keys o)) as [k|] eqn:E; [|reflexivity]. simpl.
  apply find_some in E as [_ Hk].
  rewrite get_prop_set_prop_ne; [reflexivity|]. intros ->. congruence.
Qed.

Lemma rawEmail_of_tag name o :
  rawEmail_of (set_prop "_sourceFile" (VStr name) o) = rawEmail_of o.
Proof.
  unfold rawEmail_of, findEmailKey.
  pose proof (found_cell_set_prop (fun k => includes "email" (toLowerCase k))
                "_sourceFile" (VStr name) o eq_refl eq_refl) as H.
  rewrite (find_keys_set_prop _ "_sourceFile" (VStr name) o eq_refl eq_refl) in *.
  destruct (find (fun k => includes "email" (toLowerCase k)) (keys o)) as [k|];
    [|reflexivity].
  simpl in H. injection H as H. destruct (is_empty k); [reflexivity|].
  now rewrite H.
Qed.

(** The resolver as a chain of strategies (same as for the statement of
    the order of strategies). *)
Lemma extractName_resolve row : extractName row = resolve_name row.
Proof.
  unfold extractName, resolve_name. cbn [first_success].
  rewrite !exact_step.
  destruct (by_exact_header ["name"] row); [reflexivity|].
  destruct (by_exact_header ["full name"] row); [reflexivity|].
  destruct (by_exact_header ["fullname"] row); [reflexivity|].
  unfold by_first_and_last, by_first, by_fuzzy.
  rewrite !cell_at_findIndex.
  pose proof (findIndex_first_header row is_first_name) as Hf.
  pose proof (findIndex_first_header row is_last_name) as Hl.
  destruct (findIndex is_first_name (map toLowerCase (keys row))) as [i|];
    destruct (first_header is_first_name row) as [f|];
    try (destruct Hf as [Hf1 Hf2];
         (discriminate (Hf1 eq_refl) || discriminate (Hf2 eq_refl))).
  - destruct (findIndex is_last_name (map toLowerCase (keys row))) as [j|];
      destruct (first_header is_last_name row) as [l|];
      try (destruct Hl as [Hl1 Hl2];
           (discriminate (Hl1 eq_refl) || discriminate (Hl2 eq_refl)));
      reflexivity.
  - destruct (find is_fuzzy_name (keys row)) as [k|] eqn:Ek; [|reflexivity].
    apply find_some in Ek as [_ Ek].
    now rewrite (is_fuzzy_name_nonempty _ Ek).
Qed.

Lemma header_cell_tag (p : string -> bool) name o :
  p "_sourcefile" = false ->
  first_header p (set_prop "_sourceFile" (VStr name) o) = first_header p o
  /\ option_map (cell (set_prop "_sourceFile" (VStr name) o))
                (first_header p (set_prop "_sourceFile" (VStr name) o))
     = option_map (cell o) (first_header p o).
Proof.
  intros Hp. unfold first_header.
  split; [now apply find_keys_set_prop|].
  pose proof (found_cell_set_prop (fun k => p (toLowerCase k))
                "_sourceFile" (VStr name) o eq_refl Hp) as H.
  rewrite (find_keys_set_prop _ "_sourceFile" (VStr name) o eq_refl Hp) in *.
  destruct (find (fun k => p (toLowerCase k)) (keys o)) as [k|]; [|reflexivity].
  simpl in *. injection H as H. unfold cell. now rewrite H.
Qed.

Lemma extractName_tag name o :
  extractName (set_prop "_sourceFile" (VStr name) o) = extractName o.
Proof.
  rewrite !extractName_resolve. unfold resolve_name. cbn [first_success].
  unfold by_exact_header, by_first_and_last, by_first, by_fuzzy.
  destruct (header_cell_tag (fun l => array_includes l ["name"]) name o eq_refl)
    as [_ ->].
  destruct (header_cell_tag (fun l => array_includes l ["full name"]) name o eq_refl)
    as [_ ->].
  destruct (header_cell_tag (fun l => array_includes l ["fullname"]) name o eq_refl)
    as [_ ->].
  destruct (header_cell_tag is_first_name name o eq_refl) as [Ef ->].
  destruct (header_cell_tag is_last_name name o eq_refl) as [El _].
  rewrite Ef, El.
  pose proof (found_cell_set_prop is_fuzzy_name "_sourceFile" (VStr name) o
                eq_refl eq_refl) as Hz.
  rewrite (find_keys_set_prop is_fuzzy_name "_sourceFile" (VStr name) o
             eq_refl eq_refl) in *.
  assert (Hcell : forall p k, first_header p o = Some k ->
                              p "_sourcefile" = false ->
                              cell (set_prop "_sourceFile" (VStr name) o) k = cell o k).
  { intros p k Hk Hp. unfold cell. rewrite get_prop_set_prop_ne; [reflexivity|].
    unfold first_header in Hk. apply find_some in Hk as [_ Hk].
    intros ->. change (toLowerCase "_sourceFile") with "_sourcefile" in Hk.
    congruence. }
  destruct (option_map (cell o) (first_header (fun l => array_includes l ["name"]) o));
    [reflexivity|].
  destruct (option_map (cell o) (first_header (fun l => array_includes l ["full name"]) o));
    [reflexivity|].
  destruct (option_map (cell o) (first_header (fun l => array_includes l ["fullname"]) o));
    [reflexivity|].
  destruct (first_header is_first_name o) as [f|] eqn:Hf.
  - rewrite (Hcell is_first_name f Hf eq_refl).
    destruct (first_header is_last_name o) as [l|] eqn:Hl; [|reflexivity].
    now rewrite (Hcell is_last_name l Hl eq_refl).
  - simpl.
    destruct (find is_fuzzy_name (keys o)) as [k|]; [|reflexivity].
    simpl in *. injection Hz as Hz. unfold cell. now rewrite Hz.
Qed.

End TagFacts.

(** X15. Copying a row and tagging it with its file leaves the resolvers
    alone: for a row as the parser builds it, the tagged row is the row
    followed by [_sourceFile] (when it has no such column), and it resolves
    to the same raw email, the same normalized email and the same name. *)
Theorem tag_preserves_resolution (name : string) (row : obj) :
  canonical_object row ->
  assign [] row = row
  /\ (lookup_prop "_sourceFile" row = None ->
      enrich name row = app row [("_sourceFile", VStr name)])
  /\ rawEmail_of (enrich name row) = rawEmail_of row
  /\ normalizedEmail_of (enrich name row) = normalizedEmail_of row
  /\ extractName (enrich name row) = extractName row.
Proof.
  intros Hc.
  assert (Hcopy : assign [] row = row) by now apply (assign_canonical row []).
  unfold enrich, normalizedEmail_of. rewrite Hcopy, rawEmail_of_tag, extractName_tag.
  repeat split. intros Hnone. unfold set_prop. now rewrite Hnone.
Qed.

Lemma tag_preserves_resolution_witness :
  let row := [("7", VStr "x"); ("Full Name", VStr "Ann Lee");
              ("Email Address", VStr " Ann@Acme.io")] in
  enrich "a.csv" row = app row [("_sourceFile", VStr "a.csv")]
  /\ normalizedEmail_of (enrich "a.csv" row) = normalizedEmail_of row.
Proof.
  intros row.
  assert (Hc : canonical_object row).
  { split.
    - apply (bool_decide_unpack _). vm_compute. exact I.
    - intros i j ki kj Hij Hi Hj.
      destruct j as [|[|[|j]]]; simpl in Hj; try discriminate;
        injection Hj as <-; try exact I. lia. }
  destruct (tag_preserves_resolution "a.csv" row Hc) as (_ & H1 & _ & H2 & _).
  split; [now apply H1 | exact H2].
Defined.

(** ** What the records keep, and what the exports hold *)

Section RecordFacts.

Lemma keys_insert_index {A} n k (v : A) (o : list (string * A)) : keys (insert_index n k v o) ≡ₚ k :: keys o.
Proof.
  induction o as [|[k0 v0] o IH]; simpl; [reflexivity|].
  destruct (array_index k0) as [m|]; [destruct (m <? n)%N|]; simpl;
    try reflexivity.
  rewrite IH. apply perm_swap.
Qed.

Lemma keys_NoDup_set_prop {A} k (v : A) (o : list (string * A)) : NoDup (keys o) -> NoDup (keys (set_prop k v o)).
Proof.
  intros Hnd. unfold set_prop.
  destruct (lookup_prop k o) eqn:E; [now rewrite keys_replace_prop|].
  apply lookup_prop_None in E.
  destruct (array_index k).
  - rewrite keys_insert_index. now apply NoDup_cons.
  - unfold keys. rewrite map_app. simpl.
    apply NoDup_app. repeat split; [exact Hnd| |apply NoDup_singleton].
    intros x Hx Hx'. apply list_elem_of_singleton in Hx'. now subst x.
Qed.

Lemma keys_NoDup_assign src : forall o,
  NoDup (keys o) -> NoDup (keys (assign o src)).
Proof.
  unfold assign. induction src as [|[k v] src IH]; intros o Hnd; simpl;
    [exact Hnd|].
  apply IH. now apply keys_NoDup_set_prop.
Qed.

Lemma keys_NoDup_enrich name row : NoDup (keys (enrich name row)).
Proof.
  unfold enrich. apply keys_NoDup_set_prop, keys_NoDup_assign. constructor.
Qed.

Lemma lookup_assign_present k val src : forall o,
  NoDup (keys src) -> lookup_prop k src = Some val ->
  lookup_prop k (assign o src) = Some val.
Proof.
  induction src as [|[k0 v0] src IH]; intros o Hnd Hk; [discriminate|].
  simpl in Hnd. apply NoDup_cons in Hnd as [Hfresh Hnd].
  change (assign o ((k0, v0) :: src)) with (assign (set_prop k0 v0 o) src).
  simpl in Hk. destruct (String.eqb_spec k k0) as [->|Hne].
  - injection Hk as <-.
    rewrite lookup_assign_absent by now apply lookup_prop_None.
    rewrite lookup_set_prop. now rewrite String.eqb_refl.
  - now apply IH.
Qed.

Lemma project_record_snoc columns col record :
  project_record (app columns [col]) record
  = assign_cell (header_of col) (read_or_empty col record)
                (project_record columns record).
Proof. unfold project_record. now rewrite fold_left_app. Qed.

Lemma header_of_proto col :
  String.eqb (header_of col) "__proto__" = true -> header_of col = "__proto__".
Proof. apply String.eqb_eq. Qed.

Lemma outcomes_cons v seen row rows :
  outcomes v seen (row :: rows)
  = (normalizedEmail_of row,
     fst (assign_status v seen (rawEmail_of row) (normalizedEmail_of row)))
    :: outcomes v
         (snd (assign_status v seen (rawEmail_of row) (normalizedEmail_of row)))
         rows.
Proof. reflexivity. Qed.

Lemma emitted_records_cons v seen row rows :
  emitted_records v seen (row :: rows)
  = make_record v row (rawEmail_of row) (normalizedEmail_of row) (extractName row)
      (fst (assign_status v seen (rawEmail_of row) (normalizedEmail_of row)))
    :: emitted_records v
         (snd (assign_status v seen (rawEmail_of row) (normalizedEmail_of row)))
         rows.
Proof.
  cbn [emitted_records].
  now destruct (assign_status v seen (rawEmail_of row) (normalizedEmail_of row)).
Qed.

(** Rows without a column headed [email] or [status]. *)
Lemma exported_rows v rows : forall seen,
  Forall (fun row => lookup_prop "email" row = None
                     /\ lookup_prop "status" row = None) rows ->
  map (project_record ["email"])
      (List.filter status_is_valid (emitted_records v seen rows))
  = map (fun o => [("Email", Own (VStr (fst o)))])
        (List.filter accepted (outcomes v seen rows))
  /\ map (project_record ["email"; "status"])
         (List.filter (fun r => negb (status_is_valid r))
                      (emitted_records v seen rows))
     = map (fun o => [("Email", Own (VStr (fst o)));
                      ("Status", Own (VStr (status_string (snd o))))])
           (List.filter rejected (outcomes v seen rows)).
Proof.
  induction rows as [|row rows IH]; intros seen Hrows; [split; reflexivity|].
  apply Forall_cons in Hrows as [[He Hs] Hrows].
  rewrite emitted_records_cons, outcomes_cons. cbn [List.filter].
  rewrite (status_is_valid_record v _ _ _ _ _ Hs).
  unfold rejected, accepted. cbn [fst snd].
  destruct (IH (snd (assign_status v seen (rawEmail_of row) (normalizedEmail_of row)))
              Hrows) as [IH1 IH2].
  destruct (make_record_computed v row (rawEmail_of row) (normalizedEmail_of row)
              (extractName row)
              (fst (assign_status v seen (rawEmail_of row) (normalizedEmail_of row))))
    as (_ & Hemail & Hstatus).
  specialize (Hemail He). specialize (Hstatus Hs).
  case_bool_decide; cbn [negb map]; fold rejected in *; fold accepted in *;
    rewrite ?IH1, ?IH2; (split; [|try reflexivity]); try reflexivity.
  - f_equal. rewrite project_email.
    now rewrite (read_or_empty_own _ _ _ Hemail).
  - f_equal. rewrite project_email_status.
    now rewrite (read_or_empty_own _ _ _ Hemail),
      (read_or_empty_own _ _ _ Hstatus).
Qed.

Lemma assign_status_grows v seen raw norm :
  seen ⊆ snd (assign_status v seen raw norm).
Proof.
  rewrite assign_status_cases.
  destruct (is_empty raw); [reflexivity|].
  destruct (bool_decide (norm ∈ seen)); [reflexivity|].
  apply union_subseteq_r.
Qed.

Lemma assign_status_VALID v seen raw norm :
  fst (assign_status v seen raw norm) = VALID ->
  (norm ∉ seen) /\ validateEmail norm = VALID
  /\ norm ∈ snd (assign_status v seen raw norm).
Proof.
  rewrite assign_status_cases.
  destruct (is_empty raw); [discriminate|].
  destruct (decide (norm ∈ seen)) as [Hin|Hout].
  - rewrite (bool_decide_eq_true_2 _ Hin). discriminate.
  - rewrite (bool_decide_eq_false_2 _ Hout). cbn [fst snd]. intros Hv.
    repeat split; [exact Hout | exact Hv |].
    apply elem_of_union. left. now apply elem_of_singleton.
Qed.

Lemma accepted_outcomes v rows : forall seen,
  NoDup (map fst (List.filter accepted (outcomes v seen rows)))
  /\ forall e, e ∈ map fst (List.filter accepted (outcomes v seen rows)) ->
               (e ∉ seen) /\ validateEmail e = VALID.
Proof.
  induction rows as [|row rows IH]; intros seen.
  - split; [constructor|]. intros e He. now apply not_elem_of_nil in He.
  - rewrite outcomes_cons. cbn [List.filter].
    pose proof (assign_status_grows v seen (rawEmail_of row) (normalizedEmail_of row))
      as Hsub.
    pose proof (assign_status_VALID v seen (rawEmail_of row) (normalizedEmail_of row))
      as Hvalid.
    destruct (IH (snd (assign_status v seen (rawEmail_of row)
                         (normalizedEmail_of row)))) as [Hnd Hall].
    destruct (accepted _) eqn:Ha.
    + unfold accepted in Ha. cbn [snd] in Ha. apply bool_decide_eq_true in Ha.
      destruct (Hvalid Ha) as (Hout & Hv & Hin). cbn [map fst]. split.
      * apply NoDup_cons. split; [|exact Hnd].
        intros He. apply Hall in He as [He _]. now apply He.
      * intros e He. apply elem_of_cons in He as [->|He]; [now split|].
        apply Hall in He as [He Hval]. split; [|exact Hval].
        intros Hs. apply He. now apply Hsub.
    + split; [exact Hnd|]. intros e He.
      apply Hall in He as [He Hval]. split; [|exact Hval].
      intros Hs. apply He. now apply Hsub.
Qed.

End RecordFacts.

(** X16. Every column of a row persists in the emitted record with the
    row's value; a column whose name is that of a computed field
    ([original], [email], [name], [status], [sourceFile]) therefore
    replaces the computed value. *)
Theorem record_keeps_columns (v : Variant) (files : list File) (j : nat)
    (row : obj) :
  ingest files !! j = Some row ->
  exists rec,
    processedRecords (run_loop v (ingest files)) !! j = Some rec
    /\ NoDup (keys rec)
    /\ forall k val, lookup_prop k row = Some val -> get_prop k rec = val.
Proof.
  intros Hj. rewrite processedRecords_run_loop.
  rewrite (emitted_records_lookup v _ _ _ _ Hj).
  eexists. split; [reflexivity|].
  assert (Hnd : NoDup (keys row)).
  { destruct (ingest_lookup files j row Hj) as (f & data & r0 & _ & _ & _ & ->).
    apply keys_NoDup_enrich. }
  split.
  - unfold make_record. apply keys_NoDup_assign. unfold literal.
    apply keys_NoDup_assign. constructor.
  - intros k val Hk. unfold make_record, get_prop.
    now rewrite (lookup_assign_present k val row _ Hnd Hk).
Qed.

Lemma record_keeps_columns_witness :
  exists rec,
    processedRecords
      (run_loop Extended
         (ingest (one_file [[("email", VStr " A@b.io"); ("name", VStr "")]])))
      !! 0 = Some rec
    /\ get_prop "email" rec = VStr " A@b.io"
    /\ get_prop "name" rec = VStr "".
Proof.
  destruct (record_keeps_columns Extended
              (one_file [[("email", VStr " A@b.io"); ("name", VStr "")]]) 0
              [("email", VStr " A@b.io"); ("name", VStr "");
               ("_sourceFile", VStr "in.csv")] eq_refl)
    as (rec & Hrec & _ & Hkeep).
  exists rec. split; [exact Hrec|].
  split; apply Hkeep; reflexivity.
Defined.

(** X17. For any field list, also one with repeated or colliding
    headers or with names of members of [Object.prototype], a projected
    row has every header once and never a column [__proto__]; under any
    other header it holds what [record[col] || ''] reads for the last
    listed field that maps to this header: the record's own value, the
    empty string for an own value that is empty or undefined and for a
    field that is neither own nor inherited, and the inherited member for
    a field the record lacks whose name [Object.prototype] has.  A header
    no field maps to is absent. *)
Theorem projection_last_wins (columns : list string) (record : obj) (h : string) :
  NoDup (keys (project_record columns record))
  /\ ("__proto__" ∉ keys (project_record columns record))
  /\ lookup_prop h (project_record columns record)
     = (if String.eqb h "__proto__" then None
        else option_map (fun col => read_or_empty col record)
               (find (fun col => String.eqb h (header_of col)) (rev columns)))
  /\ (forall col val, lookup_prop col record = Some val ->
                      read_or_empty col record = Own (VStr (or_empty val)))
  /\ (forall col, lookup_prop col record = None ->
                  read_or_empty col record
                  = if array_includes col object_prototype_members
                    then Inherited col else Own (VStr ""))
  /\ project_record ["constructor"; "email"; "__proto__"; "name"; "Email"]
                    [("email", VStr "a@x.com"); ("name", VUndefined)]
     = [("constructor", Inherited "constructor"); ("Email", Own (VStr ""));
        ("Name", Own (VStr ""))].
Proof.
  assert (Hmain : forall h,
    NoDup (keys (project_record columns record))
    /\ lookup_prop h (project_record columns record)
       = (if String.eqb h "__proto__" then None
          else option_map (fun col => read_or_empty col record)
                 (find (fun col => String.eqb h (header_of col)) (rev columns)))).
  { clear h. intros h.
    induction columns as [|col columns IH] using rev_ind.
    - split; [constructor|]. now destruct (String.eqb h "__proto__").
    - destruct IH as [Hnd Hlook]. rewrite project_record_snoc.
      rewrite rev_app_distr. cbn [rev app find]. unfold assign_cell.
      destruct (String.eqb (header_of col) "__proto__") eqn:Hp.
      + split; [exact Hnd|]. rewrite Hlook.
        apply header_of_proto in Hp. rewrite Hp.
        now destruct (String.eqb h "__proto__").
      + split; [now apply keys_NoDup_set_prop|].
        rewrite lookup_set_prop, Hlook.
        destruct (String.eqb_spec h "__proto__") as [->|Hh].
        * rewrite String.eqb_sym, Hp. reflexivity.
        * now destruct (String.eqb h (header_of col)). }
  split; [apply (Hmain h)|].
  split; [apply lookup_prop_None; now rewrite (proj2 (Hmain "__proto__"))|].
  split; [apply (Hmain h)|].
  split; [intros col val H; unfold read_or_empty; now rewrite H|].
  split; [intros col H; unfold read_or_empty; now rewrite H|].
  reflexivity.
Qed.

(** X18. When no parsed row has a column headed [email] or [status], the
    two downloads of the dashboard hold what the loop decided: the clean
    list is one [Email] column with the normalized emails of the rows
    assigned [VALID], in processing order, without repetition and each one
    [VALID] for the classifier; the reject list holds, for every other row,
    its normalized email and its status. *)
Theorem exported_lists (v : Variant) (files : list File) :
  (forall f data row, f ∈ files -> file_rows f = Some data -> row ∈ data ->
                      lookup_prop "email" row = None
                      /\ lookup_prop "status" row = None) ->
  let result := processFiles v files in
  let decided := outcomes v ∅ (ingest files) in
  exportData (validRecords result) ["email"]
  = map (fun o => [("Email", Own (VStr (fst o)))]) (List.filter accepted decided)
  /\ exportData (invalidRecords result) ["email"; "status"]
     = map (fun o => [("Email", Own (VStr (fst o)));
                      ("Status", Own (VStr (status_string (snd o))))])
           (List.filter rejected decided)
  /\ NoDup (map fst (List.filter accepted decided))
  /\ (forall e, e ∈ map fst (List.filter accepted decided) ->
                validateEmail e = VALID).
Proof.
  intros Hcols result decided.
  assert (Hrows : Forall (fun row => lookup_prop "email" row = None
                                     /\ lookup_prop "status" row = None)
                         (ingest files)).
  { apply Forall_forall. intros row Hrow.
    apply list_elem_of_lookup in Hrow as [j Hj].
    destruct (ingest_lookup files j row Hj) as (f & data & r0 & Hf & Hd & Hr & ->).
    destruct (Hcols f data r0 Hf Hd Hr) as [He Hs].
    split; apply enrich_lookup_absent; (discriminate || assumption). }
  destruct (exported_rows v (ingest files) ∅ Hrows) as [H1 H2].
  destruct (accepted_outcomes v (ingest files) ∅) as [H3 H4].
  unfold result, decided, exportData.
  rewrite validRecords_processFiles, invalidRecords_processFiles.
  change (0 <? length ["email"])%nat with true.
  change (0 <? length ["email"; "status"])%nat with true. cbv iota.
  split; [exact H1|]. split; [exact H2|]. split; [exact H3|].
  intros e He. now apply H4.
Qed.

Lemma exported_lists_witness :
  let files := one_file [[("Email", VStr " Ann@Acme.io ")];
                         [("Email", VStr "ann@acme.io")];
                         [("Email", VStr "info@acme.io")]] in
  exportData (validRecords (processFiles Extended files)) ["email"]
  = [[("Email", Own (VStr "ann@acme.io"))]]
  /\ exportData (invalidRecords (processFiles Extended files)) ["email"; "status"]
     = [[("Email", Own (VStr "ann@acme.io")); ("Status", Own (VStr "DUPLICATE"))];
        [("Email", Own (VStr "info@acme.io")); ("Status", Own (VStr "ROLE_BASED"))]].
Proof.
  intros files.
  destruct (exported_lists Extended files) as (H1 & H2 & _).
  { intros f data row Hf Hd Hrow.
    apply list_elem_of_singleton in Hf. subst f. injection Hd as <-.
    repeat (apply elem_of_cons in Hrow as [->|Hrow]; [split; reflexivity|]).
    now apply not_elem_of_nil in Hrow. }
  rewrite H1, H2. vm_compute. split; reflexivity.
Defined.

(** ** The dashboard *)

Section DashboardFacts.

Import Dashboard.

Lemma insert_bar_perm b l : insert_bar b l ≡ₚ b :: l.
Proof.
  induction l as [|c l IH]; simpl; [reflexivity|].
  destruct (bar_value c <=? bar_value b)%nat; [reflexivity|].
  rewrite IH. apply perm_swap.
Qed.

Lemma sort_bars_perm l : sort_bars l ≡ₚ l.
Proof.
  induction l as [|b l IH]; simpl; [reflexivity|].
  rewrite insert_bar_perm. now constructor.
Qed.

Lemma insert_bar_sorted b l :
  StronglySorted (fun x y => bar_value y <= bar_value x) l ->
  StronglySorted (fun x y => bar_value y <= bar_value x) (insert_bar b l).
Proof.
  induction 1 as [|c l Hl IH Hc]; simpl.
  - repeat constructor.
  - destruct (bar_value c <=? bar_value b)%nat eqn:E.
    + apply Nat.leb_le in E. constructor; [now constructor|].
      constructor; [exact E|].
      eapply Forall_impl; [exact Hc|]. simpl. intros y Hy. lia.
    + apply Nat.leb_gt in E. constructor; [exact IH|].
      rewrite insert_bar_perm. constructor; [lia | exact Hc].
Qed.

Lemma sort_bars_sorted l :
  StronglySorted (fun x y => bar_value y <= bar_value x) (sort_bars l).
Proof.
  induction l as [|b l IH]; simpl; [constructor | now apply insert_bar_sorted].
Qed.

Lemma count_status_total l :
  count_status VALID l + count_status INVALID_FORMAT l
  + count_status DISPOSABLE l + count_status ROLE_BASED l
  + count_status TYPO_DOMAIN l + count_status DUPLICATE l
  + count_status MISSING_MX l = length l.
Proof.
  induction l as [|st l IH]; [reflexivity|].
  rewrite !count_status_cons. cbn [length].
  destruct st; repeat case_bool_decide; try discriminate; try congruence; lia.
Qed.

Lemma count_status_absent k l : k ∉ l -> count_status k l = 0.
Proof.
  intros H. unfold count_status. apply count_occ_not_In.
  now rewrite <- list_elem_of_In.
Qed.

Lemma processFiles_breakdown v files k :
  invalidBreakdown (stats (processFiles v files)) !! k
  = Some (if bool_decide (k = VALID) then 0
          else count_status k (assigned_statuses v ∅ (ingest files))).
Proof.
  rewrite processFiles_stats.
  set (statuses := assigned_statuses v ∅ (ingest files)).
  destruct (fold_update_stats_counts statuses initial_stats)
    as (_ & _ & _ & H4 & H5).
  assert (Hkeys : forall l s0, all_keys_present (invalidBreakdown s0) ->
            all_keys_present
              (invalidBreakdown
                 (fold_left (fun s status => update_stats status s) l s0))).
  { induction l as [|st l IH]; intros s0 Hs0; simpl; [exact Hs0|].
    apply IH. unfold update_stats. case_bool_decide; simpl;
      [exact Hs0 | now apply bump_keys]. }
  case_bool_decide as Hk.
  - subst k. rewrite H5. reflexivity.
  - specialize (H4 k Hk).
    destruct (Hkeys statuses initial_stats initial_breakdown_keys k) as [n Hn].
    rewrite Hn in *. simpl in H4. f_equal. rewrite H4.
    destruct k; try contradiction; reflexivity.
Qed.

Lemma entries_processFiles v files :
  entries (invalidBreakdown (stats (processFiles v files)))
  = map (fun k => (k, if bool_decide (k = VALID) then 0
                      else count_status k (assigned_statuses v ∅ (ingest files))))
        breakdown_key_order.
Proof.
  unfold entries, breakdown_key_order. cbn [omap list_omap map].
  now rewrite !processFiles_breakdown.
Qed.

Lemma sum_positive_entries (l : list (EmailStatus * nat)) :
  sum_list_with bar_value
    (map (fun kv => mkBar (LABELS (fst kv)) (snd kv) (fst kv))
         (List.filter (fun kv => (0 <? snd kv)%nat) l))
  = sum_list_with snd l.
Proof.
  induction l as [|[k n] l IH]; simpl; [reflexivity|].
  destruct (0 <? n)%nat eqn:E; simpl; rewrite IH; [reflexivity|].
  apply Nat.ltb_ge in E. lia.
Qed.

End DashboardFacts.

(** X19. The bar chart of the dashboard shows one bar for every status,
    other than [VALID], that the loop assigned at least once, with the
    number of rows of that status, in descending order of that number; the
    bars add up to the "Invalid/Filtered" slice of the pie chart, and the
    two slices add up to the number of processed rows. *)
Theorem dashboard_charts (v : Variant) (files : list File) :
  let s := stats (processFiles v files) in
  let statuses := assigned_statuses v ∅ (ingest files) in
  let bars := Dashboard.barData s in
  StronglySorted (fun x y => Dashboard.bar_value y <= Dashboard.bar_value x) bars
  /\ (forall b, b ∈ bars <->
        exists k, k <> VALID /\ 0 < count_status k statuses
                  /\ b = Dashboard.mkBar (Dashboard.LABELS k)
                                         (count_status k statuses) k)
  /\ map Dashboard.slice_value (Dashboard.pieData s)
     = [Z.of_nat (totalValid s);
        Z.of_nat (sum_list_with Dashboard.bar_value bars)]
  /\ totalValid s + sum_list_with Dashboard.bar_value bars = totalProcessed s.
Proof.
  intros s statuses bars.
  assert (Hsum : totalValid s + sum_list_with Dashboard.bar_value bars
                 = totalProcessed s).
  { unfold bars, Dashboard.barData.
    rewrite (sort_bars_perm _), sum_positive_entries.
    unfold s. rewrite entries_processFiles.
    destruct (processFiles_counts v files) as (-> & -> & _).
    fold statuses. rewrite <- (assigned_statuses_length v (ingest files) ∅).
    fold statuses. rewrite <- (count_status_total statuses).
    unfold Dashboard.breakdown_key_order. simpl. lia. }
  split; [apply sort_bars_sorted|]. split; [|split; [|exact Hsum]].
  - intros b. unfold bars, Dashboard.barData.
    rewrite (sort_bars_perm _). unfold s. rewrite entries_processFiles.
    fold statuses. rewrite list_elem_of_In, in_map_iff. split.
    + intros ([k n] & <- & Hin). apply filter_In in Hin as [Hin Hpos].
      simpl in Hpos. apply Nat.ltb_lt in Hpos.
      apply in_map_iff in Hin as (k' & Hk' & _). injection Hk' as -> <-.
      exists k. case_bool_decide as Hk; [lia|]. now repeat split.
    + intros (k & Hk & Hpos & ->).
      exists (k, count_status k statuses). split; [reflexivity|].
      apply filter_In. split; [|now apply Nat.ltb_lt].
      apply in_map_iff. exists k.
      rewrite bool_decide_eq_false_2 by assumption. split; [reflexivity|].
      unfold Dashboard.breakdown_key_order. destruct k; simpl; tauto.
  - unfold Dashboard.pieData. cbn [map Dashboard.slice_value].
    f_equal. f_equal. lia.
Qed.

(** ** The name resolver without a name *)

Section NoNameFacts.

Lemma first_header_none (p : string -> bool) row :
  (forall l, p l = true -> includes "name" l = true) ->
  Forall (fun k => includes "name" (toLowerCase k) = false) (keys row) ->
  first_header p row = None.
Proof.
  intros Hp Hrow. unfold first_header.
  induction Hrow as [|k ks Hk _ IH]; simpl; [reflexivity|].
  destruct (p (toLowerCase k)) eqn:E; [|exact IH].
  apply Hp in E. congruence.
Qed.

Lemma exact_name_includes x l :
  includes "name" x = true -> array_includes l [x] = true ->
  includes "name" l = true.
Proof.
  intros Hx H. unfold array_includes in H. simpl in H.
  rewrite orb_false_r in H. apply String.eqb_eq in H. now subst l.
Qed.

Lemma is_first_name_includes l : is_first_name l = true -> includes "name" l = true.
Proof.
  unfold is_first_name. intros H. apply orb_true_iff in H as [H|H];
    apply String.eqb_eq in H; subst l; reflexivity.
Qed.

End NoNameFacts.

(** X20. A row none of whose headers contains "name", whatever the case,
    has the empty name. *)
Theorem extractName_without_name_header (row : obj) :
  Forall (fun k => includes "name" (toLowerCase k) = false) (keys row) ->
  extractName row = "".
Proof.
  intros Hrow. rewrite extractName_resolve. unfold resolve_name.
  cbn [first_success].
  unfold by_exact_header, by_first_and_last, by_first, by_fuzzy.
  rewrite (first_header_none (fun l => array_includes l ["name"]) row
             (fun l => exact_name_includes "name" l eq_refl) Hrow).
  rewrite (first_header_none (fun l => array_includes l ["full name"]) row
             (fun l => exact_name_includes "full name" l eq_refl) Hrow).
  rewrite (first_header_none (fun l => array_includes l ["fullname"]) row
             (fun l => exact_name_includes "fullname" l eq_refl) Hrow).
  rewrite (first_header_none is_first_name row is_first_name_includes Hrow).
  cbn [option_map].
  assert (Hfuzzy : find is_fuzzy_name (keys row) = None).
  { induction Hrow as [|k ks Hk _ IH]; simpl; [reflexivity|].
    unfold is_fuzzy_name at 1. now rewrite Hk. }
  now rewrite Hfuzzy.
Qed.

Lemma extractName_without_name_header_witness :
  extractName [("Email", VStr "a@b.io"); ("City", VStr "Oslo");
               ("_sourceFile", VStr "in.csv")] = "".
Proof.
  apply extractName_without_name_header. repeat constructor.
Defined.

(** ** The file picker *)

Section FileUploadFacts.

Import FileUpload.

Lemma endsWith_spec suffix s :
  endsWith suffix s = true <-> exists pre, s = pre ++ suffix.
Proof.
  induction s as [|c s IH]; simpl.
  - rewrite orb_false_r, String.eqb_eq. split.
    + intros ->. now exists EmptyString.
    + intros (pre & H). destruct pre; simpl in H; [easy | discriminate].
  - rewrite orb_true_iff, String.eqb_eq, IH. split.
    + intros [->|(pre & ->)]; [now exists EmptyString | now exists (String c pre)].
    + intros (pre & H). destruct pre as [|c' pre]; simpl in H.
      * now left.
      * injection H as -> ->. right. now exists pre.
Qed.

Lemma splice_one_in_range {A} index (l : list A) :
  index < length l -> splice_one index l = app (take index l) (drop (S index) l).
Proof.
  intros H. unfold splice_one.
  rewrite Nat.min_l by lia. rewrite Nat.min_l by lia.
  now rewrite Nat.add_1_r.
Qed.

Lemma splice_one_out_of_range {A} index (l : list A) :
  length l <= index -> splice_one index l = l.
Proof.
  intros H. unfold splice_one.
  rewrite Nat.min_r by lia. rewrite Nat.sub_diag, Nat.min_r by lia.
  rewrite Nat.add_0_r, firstn_all, drop_all. apply app_nil_r.
Qed.

End FileUploadFacts.

(** X21. Removing a picked file drops exactly the file at the given
    index and keeps the others in order; an index past the end removes
    nothing; removing the file that was appended last gives the former
    selection back. *)
Theorem removeFile_removes_one (files : list FileUpload.PickedFile) (index : nat) :
  (forall j, FileUpload.removeFile files index !! j
             = if (j <? index)%nat then files !! j else files !! S j)
  /\ (index < length files ->
      S (length (FileUpload.removeFile files index)) = length files)
  /\ (length files <= index -> FileUpload.removeFile files index = files)
  /\ (forall f, FileUpload.handleFileInput files [f] = Some (app files [f])
                /\ FileUpload.removeFile (app files [f]) (length files) = files).
Proof.
  unfold FileUpload.removeFile.
  split; [|split; [|split]].
  - intros j. destruct (Nat.lt_ge_cases index (length files)) as [Hin|Hout].
    + rewrite (splice_one_in_range _ _ Hin).
      destruct (j <? index)%nat eqn:E.
      * apply Nat.ltb_lt in E.
        rewrite lookup_app_l by (rewrite length_take; lia).
        now apply lookup_take_lt.
      * apply Nat.ltb_ge in E.
        rewrite lookup_app_r by (rewrite length_take; lia).
        rewrite length_take, lookup_drop. f_equal. lia.
    + rewrite (splice_one_out_of_range _ _ Hout).
      destruct (j <? index)%nat eqn:E; [reflexivity|].
      apply Nat.ltb_ge in E.
      rewrite !lookup_ge_None_2 by lia. reflexivity.
  - intros Hin. rewrite (splice_one_in_range _ _ Hin).
    rewrite length_app, length_take, length_drop. lia.
  - apply splice_one_out_of_range.
  - intros f. split; [reflexivity|].
    rewrite splice_one_in_range by (rewrite length_app; simpl; lia).
    rewrite take_app_length.
    rewrite drop_app_ge by lia.
    replace (S (length files) - length files) with 1 by lia.
    simpl. apply app_nil_r.
Qed.

Lemma removeFile_removes_one_witness :
  let a := FileUpload.mkPicked "a.csv" "text/csv" in
  let b := FileUpload.mkPicked "b.csv" "" in
  let c := FileUpload.mkPicked "c.txt" "text/plain" in
  S (length (FileUpload.removeFile [a; b; c] 1)) = 3
  /\ FileUpload.removeFile [a; b; c] 7 = [a; b; c].
Proof.
  intros a b c.
  destruct (removeFile_removes_one [a; b; c] 1) as (_ & H1 & _).
  destruct (removeFile_removes_one [a; b; c] 7) as (_ & _ & H2 & _).
  split; [apply H1; simpl; lia | apply H2; simpl; lia].
Defined.

(** X22. Dropping files keeps the current selection and appends, in their
    order, exactly the dropped files that have the media type text/csv or a
    name ending in ".csv"; an empty drop changes nothing.  Files chosen
    through the input are appended without this filter. *)
Theorem handleDrop_keeps_csv (files dropped : list FileUpload.PickedFile) :
  dropped <> [] ->
  exists added,
    FileUpload.handleDrop files dropped = Some (app files added)
    /\ added `sublist_of` dropped
    /\ (forall f, f ∈ added <->
          f ∈ dropped
          /\ (FileUpload.picked_type f = "text/csv"
              \/ exists stem, FileUpload.picked_name f = stem ++ ".csv"))
    /\ FileUpload.handleFileInput files dropped = Some (app files dropped)
    /\ FileUpload.handleDrop files [] = None.
Proof.
  intros Hne. exists (List.filter FileUpload.is_csv dropped).
  unfold FileUpload.handleDrop, FileUpload.handleFileInput.
  destruct dropped as [|d dropped]; [congruence|].
  change (0 <? length (d :: dropped))%nat with true. cbv iota.
  split; [reflexivity|]. split; [|split; [|split; reflexivity]].
  - generalize (d :: dropped). intros l.
    induction l as [|x l IH]; simpl; [constructor|].
    destruct (FileUpload.is_csv x); now constructor.
  - intros f. rewrite list_elem_of_In, filter_In, <- list_elem_of_In.
    unfold FileUpload.is_csv.
    rewrite orb_true_iff, String.eqb_eq, endsWith_spec. reflexivity.
Qed.

Lemma handleDrop_keeps_csv_witness :
  let a := FileUpload.mkPicked "a.csv" "" in
  let b := FileUpload.mkPicked "notes.txt" "text/plain" in
  let c := FileUpload.mkPicked "export" "text/csv" in
  FileUpload.handleDrop [b] [a; b; c] = Some [b; a; c].
Proof.
  intros a b c.
  destruct (handleDrop_keeps_csv [b] [a; b; c]) as (added & H & _);
    [discriminate|].
  reflexivity.
Defined.
